(** * Contact manager: a shallow embedding of [contact_manager.py]

    The development models the contact book of [contact_manager.py]:
    the phone validator, the name normalisation done with [str.strip] and
    [str.title], the four list operations driven by [input()] and
    [print()], and the CSV persistence done with [csv.DictWriter] and
    [csv.DictReader].

    Conventions of the model.
    - A Python [str] is a [string].  The functions built on the letter
      case, the white space and the digits of characters ([str.strip],
      [str.title], [str.lower], the class [\d], [int]) are modelled for
      ASCII text, where [\d] is [0-9], the cased characters are the 52
      letters and the white space of [str.strip] is 9-13 and 28-32; any
      other character is taken as uncased, non-digit and non-space.  A
      theorem whose statement depends on what these functions do to a
      text assumes that the text is ASCII ([is_ascii]).
    - [input()] reads from a list of pending lines and raises [EOFError]
      when it is exhausted; [print()] and the prompts of [input()] are
      collected as a list of events.
    - The library code used by the program ([re.match], [csv.reader],
      [csv.writer], text-mode newline translation) is modelled for the
      constructs and the dialect the program uses (the [excel] dialect:
      comma, double quote, doubled quotes, minimal quoting, CRLF line
      terminator, no escape character, CPython 3.11 or later), with the
      reader's default field size limit of 131072 characters. *)

From Stdlib Require Import Ascii String List Bool Arith Lia.
From stdpp Require Import base gmap strings list.

#[local] Arguments String.append !s1 s2 : simpl nomatch.
#[local] Arguments Ascii.eqb : simpl never.

(** ** Python strings *)

Module PyStr.

Definition LF : ascii := "010"%char.
Definition CR : ascii := "013"%char.
Definition DQUOTE : ascii := "034"%char.
Definition COMMA : ascii := ","%char.

Definition between (lo hi : nat) (c : ascii) : bool :=
  (lo <=? nat_of_ascii c) && (nat_of_ascii c <=? hi).

(** [str.isspace] on ASCII: TAB, LF, VT, FF, CR, FS, GS, RS, US, SPACE. *)
Definition isspace (c : ascii) : bool := between 9 13 c || between 28 32 c.
Definition isdigit (c : ascii) : bool := between 48 57 c.
Definition isupper (c : ascii) : bool := between 65 90 c.
Definition islower (c : ascii) : bool := between 97 122 c.
(** The cased characters of ASCII are its letters. *)
Definition iscased (c : ascii) : bool := isupper c || islower c.

Definition to_lower (c : ascii) : ascii :=
  if isupper c then ascii_of_nat (nat_of_ascii c + 32) else c.
Definition to_upper (c : ascii) : ascii :=
  if islower c then ascii_of_nat (nat_of_ascii c - 32) else c.

Definition str1 (c : ascii) : string := String c EmptyString.

(** The ASCII characters are the code points below 128. *)
Definition ascii_char (c : ascii) : bool := nat_of_ascii c <? 128.

Fixpoint all_chars (P : ascii -> bool) (s : string) : bool :=
  match s with
  | EmptyString => true
  | String c s' => P c && all_chars P s'
  end.

Fixpoint any_char (P : ascii -> bool) (s : string) : bool :=
  match s with
  | EmptyString => false
  | String c s' => P c || any_char P s'
  end.

(** A text made of ASCII characters only. *)
Definition is_ascii (s : string) : bool := all_chars ascii_char s.

(** [s.lower()] *)
Fixpoint lower (s : string) : string :=
  match s with
  | EmptyString => EmptyString
  | String c s' => String (to_lower c) (lower s')
  end.

(** [s.lstrip()], [s.rstrip()] and [s.strip()] with no argument. *)
Fixpoint lstrip (s : string) : string :=
  match s with
  | EmptyString => EmptyString
  | String c s' => if isspace c then lstrip s' else s
  end.

Fixpoint rstrip (s : string) : string :=
  match s with
  | EmptyString => EmptyString
  | String c s' =>
      match rstrip s' with
      | EmptyString => if isspace c then EmptyString else str1 c
      | r => String c r
      end
  end.

Definition strip (s : string) : string := rstrip (lstrip s).

(** [s.title()]: a cased character is upper-cased when the character
    before it is not cased and lower-cased when it is; every other
    character is kept.  [prev] is CPython's [previous_is_cased]. *)
Fixpoint title_from (prev : bool) (s : string) : string :=
  match s with
  | EmptyString => EmptyString
  | String c s' =>
      String (if prev then to_lower c else to_upper c)
             (title_from (iscased c) s')
  end.

Definition title (s : string) : string := title_from false s.

(** [s.startswith(p)] and the substring test [needle in hay]. *)
Fixpoint startswith (p s : string) : bool :=
  match p, s with
  | EmptyString, _ => true
  | String _ _, EmptyString => false
  | String a p', String b s' => Ascii.eqb a b && startswith p' s'
  end.

Fixpoint contains (needle hay : string) : bool :=
  startswith needle hay ||
  match hay with
  | EmptyString => false
  | String _ hay' => contains needle hay'
  end.

End PyStr.

(** ** The fragment of [re] used by the phone validator *)

Module Re.
Import PyStr.

(** The pattern is a plain sequence: anchors, literal characters and
    [\d{n}]. *)
Inductive item : Type :=
| Caret                 (* ^ *)
| Dollar                (* $ *)
| Lit (c : ascii)       (* an escaped or ordinary literal *)
| Digits (n : nat).     (* \d{n} *)

Fixpoint take_digits (n : nat) (s : string) : option string :=
  match n with
  | O => Some s
  | S n' =>
      match s with
      | String c s' => if isdigit c then take_digits n' s' else None
      | EmptyString => None
      end
  end.

(** Without [re.MULTILINE], [$] matches at the end of the string and
    just before a newline that ends the string. *)
Definition at_dollar (s : string) : bool :=
  match s with
  | EmptyString => true
  | String c EmptyString => Ascii.eqb c LF
  | _ => false
  end.

(** [match_at p pos s]: the items [p] match [s], the text that starts
    at offset [pos] of the subject. *)
Fixpoint match_at (p : list item) (pos : nat) (s : string) : bool :=
  match p with
  | [] => true
  | Caret :: p' => (pos =? 0) && match_at p' pos s
  | Dollar :: p' => at_dollar s && match_at p' pos s
  | Lit c :: p' =>
      match s with
      | String d s' => Ascii.eqb c d && match_at p' (S pos) s'
      | EmptyString => false
      end
  | Digits n :: p' =>
      match take_digits n s with
      | Some s' => match_at p' (pos + n) s'
      | None => false
      end
  end.

(** [re.match(p, s) is not None]: the match is tried at offset 0 only. *)
Definition re_match (p : list item) (s : string) : bool := match_at p 0 s.

End Re.

(** ** Validation *)

Import PyStr.

(** [r'^\(\d{3}\)\d{3}-\d{4}$'] *)
Definition pattern : list Re.item :=
  [Re.Caret; Re.Lit "("; Re.Digits 3; Re.Lit ")"; Re.Digits 3;
   Re.Lit "-"; Re.Digits 4; Re.Dollar].

Definition is_valid_phone (phone : string) : bool := Re.re_match pattern phone.

(** The email test of [add_contact]: its loop runs while
    ["@" not in email or "." not in email]. *)
Definition is_valid_email (email : string) : bool :=
  contains "@" email && contains "." email.

(** [.strip().title()], applied to the name read by [add_contact],
    [remove_contact] and [update_contact]. *)
Definition normalize_name (s : string) : string := title (strip s).

(** ** Contacts, exceptions and the console *)

(** A contact is the dictionary built by [add_contact]:
    [{"Full Name": ..., "phone": ..., "email": ...}]. *)
Record contact : Type := Contact {
  full_name : string;
  phone : string;
  email : string
}.

#[global] Instance contact_eq_dec : EqDecision contact.
Proof. solve_decision. Defined.

Definition set_phone (c : contact) (new_phone : string) : contact :=
  {| full_name := full_name c; phone := new_phone; email := email c |}.

Definition valid_contact (c : contact) : Prop :=
  is_valid_phone (phone c) = true /\ is_valid_email (email c) = true.

Inductive exn : Type :=
| EOFError
| ValueError
| CsvError
| KeyError
| TypeError.

Inductive result (A : Type) : Type :=
| Ok (a : A)
| Raise (e : exn).
Arguments Ok {A} a.
Arguments Raise {A} e.

#[global] Instance exn_eq_dec : EqDecision exn.
Proof. solve_decision. Defined.

#[global] Instance result_eq_dec {A : Type} `{EqDecision A} : EqDecision (result A).
Proof. solve_decision. Defined.

(** What the program writes to the terminal: the prompt of an [input()]
    call, or a line written by [print()]. *)
Inductive event : Type :=
| Prompt (s : string)
| Print (s : string).

(** The outcome of running a piece of the program: its value or the
    exception it raised, the lines of input left and the terminal
    output so far. *)
Record run (A : Type) : Type := Run {
  value : result A;
  rest : list string;
  out : list event
}.
Arguments Run {A} value rest out.
Arguments value {A} r.
Arguments rest {A} r.
Arguments out {A} r.

Definition IO (A : Type) : Type := list string -> list event -> run A.

#[global] Instance io_ret : MRet IO :=
  fun A (a : A) i o => Run (Ok a) i o.

#[global] Instance io_bind : MBind IO :=
  fun A B (k : A -> IO B) (m : IO A) i o =>
    match value (m i o) with
    | Ok a => k a (rest (m i o)) (out (m i o))
    | Raise e => Run (Raise e) (rest (m i o)) (out (m i o))
    end.

Definition raise {A : Type} (e : exn) : IO A :=
  fun i o => Run (Raise e) i o.

(** [input(prompt)] *)
Definition input (prompt : string) : IO string :=
  fun i o =>
    match i with
    | [] => Run (Raise EOFError) [] (o ++ [Prompt prompt])
    | line :: i' => Run (Ok line) i' (o ++ [Prompt prompt])
    end.

(** [print(s)] *)
Definition print (s : string) : IO unit :=
  fun i o => Run (Ok tt) i (o ++ [Print s]).

(** The loop [while not valid(v): print(complaint); v = input(prompt).strip()],
    by recursion on the pending input. *)
Fixpoint retry (valid : string -> bool) (complaint prompt : string)
    (v : string) (i : list string) (o : list event) {struct i} : run string :=
  if valid v then Run (Ok v) i o
  else
    match i with
    | [] => Run (Raise EOFError) [] (o ++ [Print complaint; Prompt prompt])
    | line :: i' =>
        retry valid complaint prompt (strip line) i'
              (o ++ [Print complaint; Prompt prompt])
    end.

(** What the loop writes for a list of rejected attempts. *)
Definition complaints (cp pp : string) (attempts : list string) : list event :=
  flat_map (fun _ => [Print cp; Prompt pp]) attempts.

(** ** The record store *)

Definition phone_prompt : string :=
  "Enter phone number (Format: (XXX)XXX-XXXX): ".
Definition new_phone_prompt : string :=
  "Enter the new phone number (Format: (XXX)XXX-XXXX): ".
Definition phone_complaint : string :=
  "Invalid phone format. Please follow the format (XXX)XXX-XXXX.".
Definition email_complaint : string :=
  "Invalid email. It must contain '@' and '.'.".

Definition remove_prompt : string := "Enter the name of the contact to remove: ".
Definition update_prompt : string := "Enter the name of the contact to update: ".
Definition search_prompt : string :=
  "Enter the name of the contact to search for: ".

Definition add_contact (contacts : list contact) : IO (list contact) :=
  line ← input "Enter full name: ";
  let full_name := title (strip line) in
  line ← input phone_prompt;
  phone ← retry is_valid_phone phone_complaint phone_prompt (strip line);
  line ← input "Enter email: ";
  email ← retry is_valid_email email_complaint "Enter email: " (strip line);
  let contact := Contact full_name phone (lower email) in
  print "Contact added successfully!";;
  mret (contacts ++ [contact]).

Definition found_line (c : contact) : string :=
  "Found: " +:+ full_name c +:+ ", Phone: " +:+ phone c
  +:+ ", Email: " +:+ email c.

(** The [for] loop of [search_contact]; [found] is its flag. *)
Fixpoint search_scan (search_term : string) (found : bool)
    (todo : list contact) : IO bool :=
  match todo with
  | [] => mret found
  | contact :: more =>
      if contains search_term (lower (full_name contact))
      then print (found_line contact);; search_scan search_term true more
      else search_scan search_term found more
  end.

Definition search_contact (contacts : list contact) : IO unit :=
  line ← input search_prompt;
  let search_term := lower (strip line) in
  found ← search_scan search_term false contacts;
  if found : bool then mret tt else print "Contact not found.".

(** [l.remove(x)]: drops the first element equal to [x]; [None] stands
    for the [ValueError] of a list that has no such element. *)
Fixpoint list_remove (x : contact) (l : list contact) : option (list contact) :=
  match l with
  | [] => None
  | y :: l' =>
      if decide (y = x) then Some l' else cons y <$> list_remove x l'
  end.

Definition removed_line (name : string) : string :=
  "Contact '" +:+ name +:+ "' removed successfully.".
Definition updated_line (name : string) : string :=
  "Phone number for '" +:+ name +:+ "' updated successfully.".
Definition not_found_line (name : string) : string :=
  "No contact found with the name '" +:+ name +:+ "'.".

(** The [for] loop of [remove_contact]: [todo] is what the iteration
    has still to visit, [contacts] the whole list. *)
Fixpoint remove_scan (name_to_remove : string) (contacts todo : list contact)
    : IO (list contact) :=
  match todo with
  | [] => print (not_found_line name_to_remove);; mret contacts
  | contact :: more =>
      if String.eqb (full_name contact) name_to_remove
      then
        match list_remove contact contacts with
        | Some contacts' =>
            print (removed_line name_to_remove);; mret contacts'
        | None => raise ValueError
        end
      else remove_scan name_to_remove contacts more
  end.

Definition remove_contact (contacts : list contact) : IO (list contact) :=
  line ← input remove_prompt;
  let name_to_remove := title (strip line) in
  remove_scan name_to_remove contacts contacts.

(** The [for] loop of [update_contact]: [seen] are the contacts the
    iteration has passed, [todo] those it has still to visit; the
    assignment [contact['phone'] = new_phone] changes the visited
    dictionary where it sits in the list. *)
Fixpoint update_scan (name_to_update : string) (seen todo : list contact)
    : IO (list contact) :=
  match todo with
  | [] => print (not_found_line name_to_update);; mret seen
  | contact :: more =>
      if String.eqb (full_name contact) name_to_update
      then
        line ← input new_phone_prompt;
        new_phone ← retry is_valid_phone phone_complaint new_phone_prompt
                          (strip line);
        print (updated_line name_to_update);;
        mret (seen ++ set_phone contact new_phone :: more)
      else update_scan name_to_update (seen ++ [contact]) more
  end.

Definition update_contact (contacts : list contact) : IO (list contact) :=
  line ← input update_prompt;
  let name_to_update := title (strip line) in
  update_scan name_to_update [] contacts.

(** One operation that changes the store and returns normally. *)
Inductive step : list contact -> list contact -> Prop :=
| step_add (s s' : list contact) (i : list string) (o : list event) :
    value (add_contact s i o) = Ok s' -> step s s'
| step_remove (s s' : list contact) (i : list string) (o : list event) :
    value (remove_contact s i o) = Ok s' -> step s s'
| step_update (s s' : list contact) (i : list string) (o : list event) :
    value (update_contact s i o) = Ok s' -> step s s'.

(** ** The persistence codec *)

Module Csv.

(** *** [csv.writer] with the [excel] dialect *)

(** With minimal quoting a field is quoted when it holds the
    delimiter, the quote character or a character of the line
    terminator. *)
Definition must_quote (c : ascii) : bool :=
  Ascii.eqb c COMMA || Ascii.eqb c DQUOTE || Ascii.eqb c CR || Ascii.eqb c LF.

Fixpoint double_quotes (s : string) : string :=
  match s with
  | EmptyString => EmptyString
  | String c s' =>
      if Ascii.eqb c DQUOTE
      then String DQUOTE (String DQUOTE (double_quotes s'))
      else String c (double_quotes s')
  end.

Definition write_field (s : string) : string :=
  if any_char must_quote s
  then String DQUOTE (double_quotes s +:+ str1 DQUOTE)
  else s.

Fixpoint join_fields (fields : list string) : string :=
  match fields with
  | [] => EmptyString
  | [f] => write_field f
  | f :: fields' => write_field f +:+ String COMMA (join_fields fields')
  end.

Definition lineterminator : string := String CR (str1 LF).

(** [writer.writerow(fields)]: a record made of one empty field is
    written as a pair of quotes. *)
Definition writerow (fields : list string) : string :=
  match fields, join_fields fields with
  | _ :: _, EmptyString => String DQUOTE (str1 DQUOTE) +:+ lineterminator
  | _, record => record +:+ lineterminator
  end.

(** *** [csv.reader] with the [excel] dialect *)

(** The states of the parser that can be entered when the dialect has
    no escape character. *)
Inductive pstate : Type :=
| START_RECORD
| START_FIELD
| IN_FIELD
| IN_QUOTED_FIELD
| QUOTE_IN_QUOTED_FIELD
| EAT_CRNL.

#[global] Instance pstate_eq_dec : EqDecision pstate.
Proof. solve_decision. Defined.

Record parser : Type := Parser {
  state : pstate;
  field : string;          (* the characters of the field being read *)
  fields : list string     (* the fields of the record read so far *)
}.

(** A character of the line, or the end-of-line mark the reader feeds
    to the parser after each line. *)
Inductive pchar : Type :=
| Chr (c : ascii)
| EOL.

Definition parse_reset : parser := Parser START_RECORD EmptyString [].

Definition parse_save_field (p : parser) (next : pstate) : parser :=
  Parser next EmptyString (fields p ++ [field p]).

(** [csv.field_size_limit()], by default. *)
Definition field_limit : N := 131072%N.

(** A field the reader can hold. *)
Definition fits (x : string) : Prop :=
  (N.of_nat (String.length x) <= field_limit)%N.

(** [parse_add_char]: a character is refused when the field has reached
    the limit. *)
Definition parse_add_char (p : parser) (next : pstate) (c : ascii)
    : result parser :=
  if (field_limit <=? N.of_nat (String.length (field p)))%N
  then Raise CsvError
  else Ok (Parser next (field p +:+ str1 c) (fields p)).

Definition goto (p : parser) (next : pstate) : parser :=
  Parser next (field p) (fields p).

Definition is_newline (c : ascii) : bool := Ascii.eqb c LF || Ascii.eqb c CR.

(** [parse_process_char] of [_csv.c], for a dialect that is not
    strict. *)
Definition parse_process_char (p : parser) (c : pchar) : result parser :=
  match state p, c with
  | START_RECORD, EOL => Ok p
  | START_RECORD, Chr ch =>
      if is_newline ch then Ok (goto p EAT_CRNL)
      else if Ascii.eqb ch DQUOTE then Ok (goto p IN_QUOTED_FIELD)
      else if Ascii.eqb ch COMMA then Ok (parse_save_field p START_FIELD)
      else parse_add_char p IN_FIELD ch
  | START_FIELD, EOL => Ok (parse_save_field p START_RECORD)
  | START_FIELD, Chr ch =>
      if is_newline ch then Ok (parse_save_field p EAT_CRNL)
      else if Ascii.eqb ch DQUOTE then Ok (goto p IN_QUOTED_FIELD)
      else if Ascii.eqb ch COMMA then Ok (parse_save_field p START_FIELD)
      else parse_add_char p IN_FIELD ch
  | IN_FIELD, EOL => Ok (parse_save_field p START_RECORD)
  | IN_FIELD, Chr ch =>
      if is_newline ch then Ok (parse_save_field p EAT_CRNL)
      else if Ascii.eqb ch COMMA then Ok (parse_save_field p START_FIELD)
      else parse_add_char p IN_FIELD ch
  | IN_QUOTED_FIELD, EOL => Ok p
  | IN_QUOTED_FIELD, Chr ch =>
      if Ascii.eqb ch DQUOTE then Ok (goto p QUOTE_IN_QUOTED_FIELD)
      else parse_add_char p IN_QUOTED_FIELD ch
  | QUOTE_IN_QUOTED_FIELD, EOL => Ok (parse_save_field p START_RECORD)
  | QUOTE_IN_QUOTED_FIELD, Chr ch =>
      if Ascii.eqb ch DQUOTE then parse_add_char p IN_QUOTED_FIELD ch
      else if Ascii.eqb ch COMMA then Ok (parse_save_field p START_FIELD)
      else if is_newline ch then Ok (parse_save_field p EAT_CRNL)
      else parse_add_char p IN_FIELD ch
  | EAT_CRNL, EOL => Ok (goto p START_RECORD)
  | EAT_CRNL, Chr ch =>
      if is_newline ch then Ok p else Raise CsvError
  end.

(** The characters of one line, then the end-of-line mark. *)
Fixpoint process_line (p : parser) (line : string) : result parser :=
  match line with
  | EmptyString => parse_process_char p EOL
  | String c line' =>
      match parse_process_char p (Chr c) with
      | Ok p' => process_line p' line'
      | Raise e => Raise e
      end
  end.

Definition cons_row (row : list string) (r : result (list (list string)))
    : result (list (list string)) :=
  match r with
  | Ok rows => Ok (row :: rows)
  | Raise e => Raise e
  end.

(** The records the reader yields from the lines of its input.  A
    record is complete when the parser is back in [START_RECORD] at
    the end of a line; the parser is then reset.  At the end of the
    input a record under way is yielded when a field has characters
    or a quoted field is open. *)
Fixpoint reader_from (p : parser) (lines : list string)
    : result (list (list string)) :=
  match lines with
  | [] =>
      if negb (String.eqb (field p) EmptyString)
         || bool_decide (state p = IN_QUOTED_FIELD)
      then Ok [fields p ++ [field p]]
      else Ok []
  | line :: lines' =>
      match process_line p line with
      | Ok p' =>
          if bool_decide (state p' = START_RECORD)
          then cons_row (fields p') (reader_from parse_reset lines')
          else reader_from p' lines'
      | Raise e => Raise e
      end
  end.

(** The states in which the parser expects a field. *)
Definition field_start (st : pstate) : Prop :=
  st = START_RECORD \/ st = START_FIELD.

Definition reader (lines : list string) : result (list (list string)) :=
  reader_from parse_reset lines.

(** *** Text files *)

(** Reading in text mode with the default [newline=None]: a CR LF
    pair and a lone CR both arrive as LF. *)
Fixpoint universal_newlines (s : string) : string :=
  match s with
  | EmptyString => EmptyString
  | String c s' =>
      if Ascii.eqb c CR
      then
        match s' with
        | String d _ =>
            if Ascii.eqb d LF then universal_newlines s'
            else String LF (universal_newlines s')
        | EmptyString => str1 LF
        end
      else String c (universal_newlines s')
  end.

(** Iterating over a text file: the lines, each with the LF that ends
    it; the last line may have none. *)
Fixpoint readlines (s : string) : list string :=
  match s with
  | EmptyString => []
  | String c s' =>
      if Ascii.eqb c LF then str1 LF :: readlines s'
      else
        match readlines s' with
        | [] => [str1 c]
        | line :: lines => String c line :: lines
        end
  end.

(** *** [csv.DictReader] and [csv.DictWriter] *)

(** The dictionaries of [csv.DictReader]: a column name is bound to
    the cell of the row or, in a short row, to [None] (the default
    [restval]); the key [None] (the default [restkey]) is bound to the
    surplus cells of a long row. *)
Record pydict : Type := PyDict {
  items : gmap string (option string);
  restkey : option (list string)
}.

#[global] Instance pydict_eq_dec : EqDecision pydict.
Proof. solve_decision. Defined.

(** [dict(zip(fieldnames, row))] *)
Fixpoint dict_zip (fieldnames row : list string)
    (d : gmap string (option string)) : gmap string (option string) :=
  match fieldnames, row with
  | k :: fieldnames', v :: row' => dict_zip fieldnames' row' (<[k := Some v]> d)
  | _, _ => d
  end.

Fixpoint fill_restval (keys : list string)
    (d : gmap string (option string)) : gmap string (option string) :=
  match keys with
  | [] => d
  | k :: keys' => fill_restval keys' (<[k := None]> d)
  end.

(** The body of [DictReader.__next__] after a non-empty row is read. *)
Definition dict_row (fieldnames row : list string) : pydict :=
  let d := dict_zip fieldnames row ∅ in
  let lf := length fieldnames in
  let lr := length row in
  if lf <? lr then PyDict d (Some (drop lf row))
  else if lr <? lf then PyDict (fill_restval (drop lr fieldnames) d) None
  else PyDict d None.

(** The first record gives the field names; later records that are
    empty lists are skipped. *)
Definition DictReader (records : list (list string)) : list pydict :=
  match records with
  | [] => []
  | fieldnames :: records' =>
      dict_row fieldnames <$>
        List.filter (fun r => negb (bool_decide (r = []))) records'
  end.

(** [DictWriter._dict_to_list]: a key outside [fieldnames] raises
    [ValueError]; a missing key gives the empty [restval]; [None] is
    written as the empty string. *)
Definition dict_to_list (fieldnames : list string) (d : pydict)
    : result (list string) :=
  match restkey d with
  | Some _ => Raise ValueError
  | None =>
      if bool_decide (dom (items d) ⊆ list_to_set fieldnames)
      then Ok ((fun k => default EmptyString (default None (items d !! k)))
                 <$> fieldnames)
      else Raise ValueError
  end.

End Csv.

Import Csv.

Definition fieldnames : list string := ["Full Name"; "phone"; "email"].

(** The dictionary that stands for a contact; the keys are inserted in
    the order of the literal in [add_contact], which is also the order
    of the columns. *)
Definition to_dict (c : contact) : pydict :=
  PyDict (<["email" := Some (email c)]>
            (<["phone" := Some (phone c)]>
               (<["Full Name" := Some (full_name c)]> ∅)))
         None.

(** The contact a dictionary stands for, when it has the three fields
    bound to strings and nothing else. *)
Definition of_dict (d : pydict) : option contact :=
  match restkey d, items d !! "Full Name", items d !! "phone",
        items d !! "email" with
  | None, Some (Some n), Some (Some p), Some (Some e) =>
      if bool_decide (size (items d) = 3) then Some (Contact n p e) else None
  | _, _, _, _ => None
  end.

Definition has_cr (s : string) : bool := any_char (fun c => Ascii.eqb c CR) s.

(** A contact none of whose fields holds a carriage return. *)
Definition cr_free (c : contact) : Prop :=
  has_cr (full_name c) = false /\ has_cr (phone c) = false /\
  has_cr (email c) = false.

(** A contact each of whose fields the reader can hold. *)
Definition fields_fit (c : contact) : Prop :=
  fits (full_name c) /\ fits (phone c) /\ fits (email c).

Fixpoint repeat_char (n : nat) (c : ascii) : string :=
  match n with
  | O => EmptyString
  | S n' => String c (repeat_char n' c)
  end.

Definition row_of (c : contact) : list string :=
  [full_name c; phone c; email c].

Definition not_found_warning (filename : string) : string :=
  "File " +:+ filename +:+ " not found. Starting with an empty contact list.".

(** [load_contacts]: [fs] maps the name of each file that exists to its
    text. *)
Definition load_contacts (fs : gmap string string) (filename : string)
    : IO (list pydict) :=
  match fs !! filename with
  | None => print (not_found_warning filename);; mret []
  | Some text =>
      match reader (readlines (universal_newlines text)) with
      | Ok records => mret (DictReader records)
      | Raise e => raise e
      end
  end.

(** The rows of [save_contacts], appended to what has been written. *)
Fixpoint write_rows (contacts : list pydict) (written : string)
    : result unit * string :=
  match contacts with
  | [] => (Ok tt, written)
  | contact :: contacts' =>
      match dict_to_list fieldnames contact with
      | Ok row => write_rows contacts' (written +:+ writerow row)
      | Raise e => (Raise e, written)
      end
  end.

(** The text of the data rows of a store. *)
Fixpoint rows_text (contacts : list contact) : string :=
  match contacts with
  | [] => EmptyString
  | c :: contacts' => writerow (row_of c) +:+ rows_text contacts'
  end.

(** [save_contacts]: the file is opened with [newline=''], so the text
    is stored as written; it replaces the former content. *)
Definition save_contacts (contacts : list pydict) (filename : string)
    (fs : gmap string string) : result unit * gmap string string :=
  let '(r, text) := write_rows contacts (writerow fieldnames) in
  (r, <[filename := text]> fs).


(** ** Specification-level definitions *)

(** The phone format in the words of the specification: an opening
    parenthesis, three digits, a closing parenthesis, three digits, a
    hyphen and four digits, and nothing before or after. *)
Definition digits (n : nat) (s : string) : Prop :=
  String.length s = n /\ all_chars isdigit s = true.

Definition phone_format (s : string) : Prop :=
  exists a b c : string,
    digits 3 a /\ digits 3 b /\ digits 4 c /\
    s = "(" +:+ a +:+ ")" +:+ b +:+ "-" +:+ c.


(** The contacts a search term matches: those whose lower-cased name
    has the lower-cased term as a substring. *)
Definition matching (term : string) (contacts : list contact) : list contact :=
  List.filter (fun c => contains (lower term) (lower (full_name c))) contacts.

Definition is_substring (needle hay : string) : Prop :=
  exists pre post : string, hay = pre +:+ needle +:+ post.




(** ** Viewing the store *)

Fixpoint spaces (n : nat) : string :=
  match n with
  | O => EmptyString
  | S n' => String " " (spaces n')
  end.

(** The format specification [:<width]: the text is padded on the right
    with spaces up to [width] characters and is never cut.  The length
    of the model is the length of the Python text when the text is
    ASCII. *)
Definition ljust (width : nat) (s : string) : string :=
  s +:+ spaces (width - String.length s).

Fixpoint dashes (n : nat) : string :=
  match n with
  | O => EmptyString
  | S n' => String "-" (dashes n')
  end.

Definition view_header : string :=
  ljust 20 "Full Name" +:+ " " +:+ ljust 20 "Phone" +:+ " " +:+ ljust 30 "Email".

(** [f"{contact[key]:<width}"]: a missing key raises [KeyError], and
    [None] takes no format specification and raises [TypeError]. *)
Definition format_field (d : pydict) (key : string) (width : nat)
    : result string :=
  match items d !! key with
  | None => Raise KeyError
  | Some None => Raise TypeError
  | Some (Some s) => Ok (ljust width s)
  end.

(** The line of [view_contacts] for one dictionary; the three fields
    are looked up and formatted from left to right. *)
Definition view_line (d : pydict) : result string :=
  match format_field d "Full Name" 20 with
  | Raise e => Raise e
  | Ok n =>
      match format_field d "phone" 20 with
      | Raise e => Raise e
      | Ok p =>
          match format_field d "email" 30 with
          | Raise e => Raise e
          | Ok e => Ok (n +:+ " " +:+ p +:+ " " +:+ e)
          end
      end
  end.

(** The line for a contact. *)
Definition view_text (c : contact) : string :=
  ljust 20 (full_name c) +:+ " " +:+ ljust 20 (phone c) +:+ " "
  +:+ ljust 30 (email c).

(** The [for] loop of [view_contacts]. *)
Fixpoint view_rows (todo : list pydict) : IO unit :=
  match todo with
  | [] => mret tt
  | contact :: more =>
      match view_line contact with
      | Ok l => print l;; view_rows more
      | Raise e => raise e
      end
  end.

Definition view_contacts (contacts : list pydict) : IO unit :=
  match contacts with
  | [] => print "No contacts available."
  | _ :: _ => print view_header;; print (dashes 70);; view_rows contacts
  end.

(** A contact whose three fields are ASCII text. *)
Definition ascii_fields (c : contact) : Prop :=
  is_ascii (full_name c) = true /\ is_ascii (phone c) = true /\
  is_ascii (email c) = true.

(** ** The menu loop of [main.py] *)

(** The white space [int] accepts around a number: TAB, LF, VT, FF, CR
    and SPACE. *)
Definition int_space (c : ascii) : bool := between 9 13 c || Ascii.eqb c " ".

Fixpoint lstrip_by (P : ascii -> bool) (s : string) : string :=
  match s with
  | EmptyString => EmptyString
  | String c s' => if P c then lstrip_by P s' else s
  end.

Fixpoint rstrip_by (P : ascii -> bool) (s : string) : string :=
  match s with
  | EmptyString => EmptyString
  | String c s' =>
      match rstrip_by P s' with
      | EmptyString => if P c then EmptyString else str1 c
      | r => String c r
      end
  end.

Definition digit_value (c : ascii) : Z := Z.of_nat (nat_of_ascii c - 48).

(** The digits of a decimal literal: one underscore may stand between
    two digits.  The result is the value and the number of digits. *)
Fixpoint int_digits (s : string) (after_digit : bool) (acc : Z) (n : nat)
    : option (Z * nat) :=
  match s with
  | EmptyString => if after_digit then Some (acc, n) else None
  | String c s' =>
      if isdigit c
      then int_digits s' true (10 * acc + digit_value c)%Z (S n)
      else if Ascii.eqb c "_"
      then (if after_digit then int_digits s' false acc n else None)
      else None
  end.

(** The default limit of [sys.set_int_max_str_digits]. *)
Definition int_max_str_digits : nat := 4300.

(** [int(s)] for a string of ASCII characters: [None] stands for
    [ValueError]. *)
Definition int (s : string) : option Z :=
  let t := rstrip_by int_space (lstrip_by int_space s) in
  let '(negative, body) :=
    match t with
    | String c body =>
        if Ascii.eqb c "+" then (false, body)
        else if Ascii.eqb c "-" then (true, body)
        else (false, t)
    | EmptyString => (false, t)
    end in
  match int_digits body false 0%Z 0 with
  | Some (v, n) =>
      if int_max_str_digits <? n then None
      else Some (if negative : bool then (- v)%Z else v)
  | None => None
  end.

Definition menu_lines : list string :=
  [String LF "Contact Manager Menu"; "1. Add Contact"; "2. View Contacts";
   "3. Search Contact"; "4. Remove Contact"; "5. Update Contact"; "6. Exit"].

Definition choice_prompt : string := "Enter your choice (1-6): ".
Definition invalid_input_line : string := "Invalid input. Please enter a number.".
Definition invalid_choice_line : string :=
  "Invalid choice. Please choose a number between 1 and 6.".
Definition saved_line : string := "Contacts saved successfully. Exiting...".
Definition loaded_line : string := "Contacts loaded successfully.".
Definition contacts_file : string := "contacts.csv".

Fixpoint print_lines (lines : list string) : IO unit :=
  match lines with
  | [] => mret tt
  | l :: lines' => print l;; print_lines lines'
  end.

(** How one turn of the loop ends: the loop goes on with the files and
    the store, or it was left by [break]. *)
Inductive loop_state : Type :=
| Continue (fs : gmap string string) (contacts : list contact)
| Exit (fs : gmap string string).

(** The [except ValueError] clause around the body of a turn. *)
Definition except_ValueError (fallback : loop_state) (m : IO loop_state)
    : IO loop_state :=
  fun i o =>
    match value (m i o) with
    | Raise ValueError =>
        (print invalid_input_line;; mret fallback) (rest (m i o)) (out (m i o))
    | _ => m i o
    end.

(** The [if]/[elif] chain of [main]. *)
Definition dispatch (choice : Z) (fs : gmap string string)
    (contacts : list contact) : IO loop_state :=
  if (choice =? 1)%Z then contacts' ← add_contact contacts; mret (Continue fs contacts')
  else if (choice =? 2)%Z then
    view_contacts (to_dict <$> contacts);; mret (Continue fs contacts)
  else if (choice =? 3)%Z then search_contact contacts;; mret (Continue fs contacts)
  else if (choice =? 4)%Z then
    contacts' ← remove_contact contacts; mret (Continue fs contacts')
  else if (choice =? 5)%Z then
    contacts' ← update_contact contacts; mret (Continue fs contacts')
  else if (choice =? 6)%Z then
    match save_contacts (to_dict <$> contacts) contacts_file fs with
    | (Ok _, fs') => print saved_line;; mret (Exit fs')
    | (Raise ValueError, fs') =>
        print invalid_input_line;; mret (Continue fs' contacts)
    | (Raise e, _) => raise e
    end
  else print invalid_choice_line;; mret (Continue fs contacts).

(** One turn of [while True]: the menu, the choice and the guarded
    body. *)
Definition menu_iteration (fs : gmap string string) (contacts : list contact)
    : IO loop_state :=
  print_lines menu_lines;;
  line ← input choice_prompt;
  except_ValueError (Continue fs contacts)
    (match int line with
     | None => raise ValueError
     | Some choice => dispatch choice fs contacts
     end).

(** The loop of [main].  Every turn that goes on has read a line, so a
    number of turns equal to the number of pending lines is never
    exhausted; [fuel] is that bound.  The result is the files at the end
    and the outcome on the terminal. *)
Fixpoint menu_loop (fuel : nat) (fs : gmap string string)
    (contacts : list contact) (i : list string) (o : list event)
    : gmap string string * run unit :=
  let r := menu_iteration fs contacts i o in
  match value r with
  | Raise e => (fs, Run (Raise e) (rest r) (out r))
  | Ok (Exit fs') => (fs', Run (Ok tt) (rest r) (out r))
  | Ok (Continue fs' contacts') =>
      match fuel with
      | O => (fs', Run (Raise EOFError) (rest r) (out r))
      | S fuel' => menu_loop fuel' fs' contacts' (rest r) (out r)
      end
  end.

(** [main], for a store of contacts: what follows the call of
    [load_contacts]. *)
Definition session (fs : gmap string string) (contacts : list contact)
    (i : list string) (o : list event) : gmap string string * run unit :=
  menu_loop (length i) fs contacts i (o ++ [Print loaded_line]).

(** [main].  The operations index every dictionary of the store by the
    three field names, so the model covers the files whose rows are
    contacts; it is [None] for a file with a row of another shape. *)
Definition main (fs : gmap string string) (i : list string) (o : list event)
    : option (gmap string string * run unit) :=
  let r := load_contacts fs contacts_file i o in
  match value r with
  | Raise e => Some (fs, Run (Raise e) (rest r) (out r))
  | Ok rows =>
      match mapM of_dict rows with
      | Some contacts => Some (session fs contacts (rest r) (out r))
      | None => None
      end
  end.

(** A piece of the program that only reads forward and fails only by
    running out of input: it leaves no more lines than it found, and
    when it raises, the exception is [EOFError] and no line is left. *)
Definition eof_only {A : Type} (m : IO A) : Prop :=
  forall (i : list string) (o : list event),
    length (rest (m i o)) <= length i /\
    forall e : exn, value (m i o) = Raise e -> e = EOFError /\ rest (m i o) = [].

(** ** More on the codec *)

(** The three cells [DictWriter] writes for a dictionary: a missing key
    and the value [None] both give the empty string. *)
Definition cell (d : pydict) (k : string) : string :=
  default EmptyString (default None (items d !! k)).

Definition cells_of (d : pydict) : contact :=
  Contact (cell d "Full Name") (cell d "phone") (cell d "email").

(** The dictionaries [DictWriter] accepts: every key is a field name. *)
Definition savable (d : pydict) : Prop :=
  restkey d = None /\ dom (items d) ⊆ list_to_set fieldnames.

(** The text of one record as [csv.writer] forms it, before the line
    terminator. *)
Definition record_text (row : list string) : string :=
  match row, join_fields row with
  | _ :: _, EmptyString => String DQUOTE (str1 DQUOTE)
  | _, record => record
  end.

(** Records written one per line, each ended by [eol]. *)
Fixpoint records_text (eol : string) (rows : list (list string)) : string :=
  match rows with
  | [] => EmptyString
  | row :: rows' => record_text row +:+ eol +:+ records_text eol rows'
  end.

(** The line ends that text-mode reading turns into LF. *)
Definition line_end (eol : string) : Prop :=
  eol = lineterminator \/ eol = str1 LF \/ eol = str1 CR.

Definition skip_empty (rows : list (list string)) : list (list string) :=
  List.filter (fun r => negb (bool_decide (r = []))) rows.

Definition starts_lf (s : string) : bool :=
  match s with
  | String c _ => Ascii.eqb c LF
  | EmptyString => false
  end.

Definition cells_cr_free (row : list string) : Prop :=
  Forall (fun x => has_cr x = false) row.

Definition cells_fit (row : list string) : Prop := Forall fits row.

(** The text [save_contacts] writes for a store. *)
Definition file_text (contacts : list contact) : string :=
  writerow fieldnames +:+ rows_text contacts.

(** What a turn of the menu writes before it reads the choice. *)
Definition menu_events : list event :=
  (Print <$> menu_lines) ++ [Prompt choice_prompt].
(** ** Facts about characters and strings *)

Ltac ascii_cases c := destruct c as [[] [] [] [] [] [] [] []].

Lemma isspace_not_cased c : isspace c = true -> iscased c = false.
Proof. ascii_cases c; vm_compute; congruence. Qed.



Lemma append_nil_r (s : string) : s +:+ EmptyString = s.
Proof. induction s as [|c s IH]; simpl; [reflexivity | now rewrite IH]. Qed.

Lemma append_assoc (a b c : string) : (a +:+ b) +:+ c = a +:+ (b +:+ c).
Proof. induction a as [|x a IH]; simpl; [reflexivity | now rewrite IH]. Qed.

Ltac norm_app := simpl; repeat (rewrite append_assoc; simpl).

Lemma all_chars_app P (a b : string) :
  all_chars P (a +:+ b) = all_chars P a && all_chars P b.
Proof.
  induction a as [|x a IH]; simpl; [reflexivity|].
  now rewrite IH, andb_assoc.
Qed.





(** ** Phone validation *)

Lemma take_digits_spec n : forall s s',
  Re.take_digits n s = Some s' <-> exists a, digits n a /\ s = a +:+ s'.
Proof.
  induction n as [|n IH]; intros s s'; simpl.
  - split.
    + intros [= ->]. exists EmptyString. repeat split.
    + intros ([|x a] & [Hl _] & ->); [reflexivity | discriminate].
  - destruct s as [|c s].
    + split; [discriminate|].
      intros ([|x a] & [Hl _] & He); discriminate.
    + destruct (isdigit c) eqn:Hd.
      * rewrite IH. split.
        -- intros (a & [Hl Ha] & ->). exists (String c a).
           repeat split; simpl; [now rewrite Hl | now rewrite Hd, Ha].
        -- intros ([|x a] & [Hl Ha] & He); [discriminate|].
           simpl in *. injection He as -> ->. injection Hl as Hl.
           apply andb_true_iff in Ha as [_ Ha]. exists a. repeat split; auto.
      * split; [discriminate|].
        intros ([|x a] & [Hl Ha] & He); [discriminate|].
        simpl in *. injection He as -> ->. now rewrite Hd in Ha.
Qed.

Lemma take_digits_app n a s : digits n a -> Re.take_digits n (a +:+ s) = Some s.
Proof. intros H. apply take_digits_spec. eauto. Qed.

#[local] Arguments Re.take_digits : simpl never.
#[local] Arguments Re.at_dollar : simpl never.

(** What the validator accepts: the format, or the format followed by
    one newline. *)
Lemma is_valid_phone_iff s :
  is_valid_phone s = true <->
  phone_format s \/ exists s0, phone_format s0 /\ s = s0 +:+ str1 LF.
Proof.
  unfold is_valid_phone, Re.re_match, pattern. simpl.
  split.
  - destruct s as [|c0 s]; [discriminate|].
    intros [<-%Ascii.eqb_eq H]%andb_true_iff.
    destruct (Re.take_digits 3 s) as [s1|] eqn:H1; [|discriminate].
    apply take_digits_spec in H1 as (a & Ha & ->).
    destruct s1 as [|c1 s1]; [discriminate|].
    apply andb_true_iff in H as [<-%Ascii.eqb_eq H].
    destruct (Re.take_digits 3 s1) as [s2|] eqn:H2; [|discriminate].
    apply take_digits_spec in H2 as (b & Hb & ->).
    destruct s2 as [|c2 s2]; [discriminate|].
    apply andb_true_iff in H as [<-%Ascii.eqb_eq H].
    destruct (Re.take_digits 4 s2) as [s3|] eqn:H3; [|discriminate].
    apply take_digits_spec in H3 as (c & Hc & ->).
    rewrite andb_true_r in H.
    destruct s3 as [|x [|y s3]]; cbv [Re.at_dollar] in H; try discriminate.
    + left. exists a, b, c. rewrite append_nil_r. auto.
    + apply Ascii.eqb_eq in H as ->. right.
      exists ("(" +:+ a +:+ ")" +:+ b +:+ "-" +:+ c). split.
      * exists a, b, c. auto.
      * now norm_app.
  - assert (Hfmt : forall t tl, phone_format t -> Re.at_dollar tl = true ->
        match t +:+ tl with
        | String d s' => Ascii.eqb "(" d &&
            match Re.take_digits 3 s' with
            | Some (String d0 s'1) => Ascii.eqb ")" d0 &&
                match Re.take_digits 3 s'1 with
                | Some (String d1 s'3) => Ascii.eqb "-" d1 &&
                    match Re.take_digits 4 s'3 with
                    | Some s'4 => Re.at_dollar s'4 && true
                    | None => false
                    end
                | _ => false
                end
            | _ => false
            end
        | EmptyString => false
        end = true).
    { intros t tl (a & b & c & Ha & Hb & Hc & ->) Htl. norm_app.
      rewrite (take_digits_app 3 a) by easy. simpl.
      rewrite (take_digits_app 3 b) by easy. simpl.
      rewrite (take_digits_app 4 c) by easy. now rewrite Htl. }
    intros [H | (s0 & H & ->)].
    + rewrite <- (append_nil_r s). now apply Hfmt.
    + now apply Hfmt.
Qed.

Lemma phone_format_length s : phone_format s -> String.length s = 13.
Proof.
  intros (a & b & c & [La _] & [Lb _] & [Lc _] & ->).
  destruct a as [|? [|? [|? [|]]]]; try discriminate.
  destruct b as [|? [|? [|? [|]]]]; try discriminate.
  destruct c as [|? [|? [|? [|? [|]]]]]; try discriminate.
  reflexivity.
Qed.

(** C3. The validator accepts the thirteen characters of the format
    followed by a newline, a string that is not a full match of the
    format. *)
Theorem is_valid_phone_trailing_newline :
  is_valid_phone ("(555)123-4567" +:+ str1 LF) = true /\
  ~ phone_format ("(555)123-4567" +:+ str1 LF).
Proof.
  split; [reflexivity|].
  intros H%phone_format_length. discriminate.
Qed.

(** ** Name normalisation *)


Lemma rstrip_cons_keep c s :
  isspace c = false -> rstrip (String c s) = String c (rstrip s).
Proof. intros H. simpl. rewrite H. now destruct (rstrip s). Qed.

Lemma lstrip_head s :
  lstrip s = EmptyString \/
  exists c r, lstrip s = String c r /\ isspace c = false.
Proof.
  induction s as [|c s IH]; simpl; [now left|].
  destruct (isspace c) eqn:E; [assumption|]. right. eauto.
Qed.

(** The last character of a right-trimmed text is not white space. *)
Lemma rstrip_last : forall s a c,
  rstrip s = a +:+ str1 c -> isspace c = false.
Proof.
  induction s as [|x s IH]; intros a c; simpl.
  - destruct a; discriminate.
  - destruct (rstrip s) as [|d r] eqn:E.
    + destruct (isspace x) eqn:Ex.
      * destruct a; discriminate.
      * destruct a as [|y [|z a]]; simpl; intros H; inversion H; congruence.
    + destruct a as [|y a]; simpl; [discriminate|].
      intros [= -> H]. now apply (IH a c).
Qed.






(** ** The console *)

Ltac io_unfold :=
  unfold mbind, io_bind, mret, io_ret, input, print, raise; simpl.

Lemma retry_ok valid cp pp v i o :
  valid v = true -> retry valid cp pp v i o = Run (Ok v) i o.
Proof. intros H. destruct i; simpl; now rewrite H. Qed.

Lemma retry_value valid cp pp : forall i v o p,
  value (retry valid cp pp v i o) = Ok p -> valid p = true.
Proof.
  induction i as [|line i IH]; intros v o p; simpl;
    destruct (valid v) eqn:Hv; simpl; try congruence; eauto.
Qed.

Lemma retry_attempts valid cp pp good i :
  valid (strip good) = true ->
  forall bad v o,
    valid v = false ->
    Forall (fun x => valid (strip x) = false) bad ->
    retry valid cp pp v (bad ++ good :: i) o =
    Run (Ok (strip good)) i (o ++ [Print cp; Prompt pp] ++ complaints cp pp bad).
Proof.
  intros Hgood. induction bad as [|b bad IH]; intros v o Hv Hbad; simpl.
  - rewrite Hv. rewrite retry_ok by assumption. reflexivity.
  - rewrite Hv. inversion Hbad; subst.
    rewrite IH by assumption. now rewrite <- app_assoc.
Qed.

(** A first line read by [input], then the retry loop: the invalid
    attempts are skipped and the first valid one is returned. *)
Lemma input_retry valid cp pp good bad i o :
  valid (strip good) = true ->
  Forall (fun x => valid (strip x) = false) bad ->
  (line ← input pp; retry valid cp pp (strip line)) (bad ++ good :: i) o =
  Run (Ok (strip good)) i (o ++ Prompt pp :: complaints cp pp bad).
Proof.
  intros Hgood Hbad. io_unfold. destruct bad as [|b bad]; simpl.
  - now rewrite retry_ok.
  - inversion Hbad; subst. rewrite (retry_attempts valid cp pp good i) by assumption.
    now rewrite <- app_assoc.
Qed.

(** ** Search *)

Lemma startswith_spec p : forall s,
  startswith p s = true <-> exists post, s = p +:+ post.
Proof.
  induction p as [|a p IH]; intros s; simpl.
  - split; eauto.
  - destruct s as [|b s].
    + split; [discriminate | intros [post H]; discriminate].
    + rewrite andb_true_iff, Ascii.eqb_eq, IH. split.
      * intros [-> [post ->]]. eauto.
      * intros [post [= -> ->]]. eauto.
Qed.

Lemma contains_spec needle : forall hay,
  contains needle hay = true <-> is_substring needle hay.
Proof.
  unfold is_substring.
  induction hay as [|c hay IH]; simpl; rewrite orb_true_iff, startswith_spec.
  - split.
    + intros [[post ->] | H]; [|discriminate]. exists EmptyString, post. reflexivity.
    + intros ([|x pre] & post & H); [left; eauto | discriminate].
  - rewrite IH. split.
    + intros [[post ->] | (pre & post & ->)].
      * exists EmptyString, post. reflexivity.
      * exists (String c pre), post. reflexivity.
    + intros ([|x pre] & post & H); simpl in H.
      * left. eauto.
      * injection H as -> ->. right. eauto.
Qed.

Lemma contains_empty hay : contains EmptyString hay = true.
Proof. destruct hay; reflexivity. Qed.

Lemma search_scan_spec term : forall todo found i o,
  search_scan (lower term) found todo i o =
  Run (Ok (found || negb (bool_decide (matching term todo = []))))
      i (o ++ (Print ∘ found_line <$> matching term todo)).
Proof.
  unfold matching.
  induction todo as [|c todo IH]; intros found i o; simpl.
  - io_unfold. now rewrite orb_false_r, app_nil_r.
  - destruct (contains (lower term) (lower (full_name c))) eqn:Hc.
    + io_unfold. rewrite IH. simpl.
      rewrite orb_true_r, <- app_assoc. reflexivity.
    + apply IH.
Qed.

(** What [search_contact] writes for a list of hits. *)
Lemma search_contact_spec contacts line i o :
  search_contact contacts (line :: i) o =
  Run (Ok tt) i
      (o ++ Prompt search_prompt ::
         match matching (strip line) contacts with
         | [] => [Print "Contact not found."]
         | hits => Print ∘ found_line <$> hits
         end).
Proof.
  unfold search_contact. io_unfold. rewrite search_scan_spec. simpl.
  destruct (matching (strip line) contacts) as [|h hits]; simpl.
  - now rewrite app_nil_r, <- app_assoc.
  - now rewrite <- app_assoc.
Qed.



(** C10. A search term that trims to the empty string matches every
    contact of the store: there is no minimum length. *)
Theorem search_contact_empty_term (contacts : list contact)
    (line : string) (i : list string) (o : list event) :
  strip line = EmptyString ->
  matching (strip line) contacts = contacts /\
  search_contact contacts (line :: i) o =
    Run (Ok tt) i
        (o ++ Prompt search_prompt ::
           match contacts with
           | [] => [Print "Contact not found."]
           | _ => Print ∘ found_line <$> contacts
           end).
Proof.
  intros H.
  assert (E : matching (strip line) contacts = contacts).
  { rewrite H. unfold matching. simpl.
    induction contacts as [|c contacts IH]; simpl; [reflexivity|].
    now rewrite contains_empty, IH. }
  split; [exact E|]. rewrite search_contact_spec, E. now destruct contacts.
Qed.

Lemma search_contact_empty_term_witness :
  strip "   " = EmptyString /\
  search_contact [Contact "John Smith" "(555)123-4567" "john@example.com";
                  Contact "Bob Stone" "(555)000-1111" "bob@example.com"]
                 ["   "] [] =
    Run (Ok tt) []
        [Prompt search_prompt;
         Print "Found: John Smith, Phone: (555)123-4567, Email: john@example.com";
         Print "Found: Bob Stone, Phone: (555)000-1111, Email: bob@example.com"].
Proof.
  split; [reflexivity|].
  apply (search_contact_empty_term
           [Contact "John Smith" "(555)123-4567" "john@example.com";
            Contact "Bob Stone" "(555)000-1111" "bob@example.com"]
           "   " [] [] eq_refl).
Defined.

(** ** Remove and update *)

Lemma name_eqb_miss (d : contact) (name : string) :
  full_name d <> name -> String.eqb (full_name d) name = false.
Proof. intros H. now apply String.eqb_neq. Qed.

Lemma list_remove_first (c : contact) (post : list contact) : forall pre,
  Forall (fun d => d <> c) pre ->
  list_remove c (pre ++ c :: post) = Some (pre ++ post).
Proof.
  induction pre as [|d pre IH]; intros H; simpl.
  - now rewrite decide_True.
  - inversion H; subst. rewrite decide_False by assumption.
    now rewrite IH.
Qed.

Lemma remove_scan_miss name contacts : forall todo i o,
  Forall (fun d => full_name d <> name) todo ->
  remove_scan name contacts todo i o =
  Run (Ok contacts) i (o ++ [Print (not_found_line name)]).
Proof.
  induction todo as [|d todo IH]; intros i o H; simpl; [reflexivity|].
  inversion H; subst. rewrite name_eqb_miss by assumption. now apply IH.
Qed.

Lemma remove_scan_hit name c post : forall pre2 pre1 i o,
  full_name c = name ->
  Forall (fun d => full_name d <> name) (pre1 ++ pre2) ->
  remove_scan name (pre1 ++ pre2 ++ c :: post) (pre2 ++ c :: post) i o =
  Run (Ok (pre1 ++ pre2 ++ post)) i (o ++ [Print (removed_line name)]).
Proof.
  induction pre2 as [|d pre2 IH]; intros pre1 i o Hc Hpre; simpl.
  - rewrite Hc, String.eqb_refl. rewrite app_nil_r in Hpre.
    rewrite list_remove_first; [reflexivity|].
    eapply Forall_impl; [exact Hpre|]. simpl. intros d Hd ->. now apply Hd.
  - assert (Hd : full_name d <> name).
    { apply Forall_app in Hpre as [_ Hd]. now inversion Hd. }
    rewrite name_eqb_miss by assumption.
    replace (pre1 ++ d :: pre2 ++ c :: post)
      with ((pre1 ++ [d]) ++ pre2 ++ c :: post) by now rewrite <- app_assoc.
    rewrite IH; [now rewrite <- app_assoc | assumption |].
    now rewrite <- app_assoc.
Qed.

Lemma update_scan_miss name : forall todo seen i o,
  Forall (fun d => full_name d <> name) todo ->
  update_scan name seen todo i o =
  Run (Ok (seen ++ todo)) i (o ++ [Print (not_found_line name)]).
Proof.
  induction todo as [|d todo IH]; intros seen i o H; simpl.
  - now rewrite app_nil_r.
  - inversion H; subst. rewrite name_eqb_miss by assumption.
    rewrite IH by assumption. now rewrite <- app_assoc.
Qed.

Lemma update_scan_hit name c post good bad i : forall pre seen o,
  full_name c = name ->
  Forall (fun d => full_name d <> name) pre ->
  is_valid_phone (strip good) = true ->
  Forall (fun x => is_valid_phone (strip x) = false) bad ->
  update_scan name seen (pre ++ c :: post) (bad ++ good :: i) o =
  Run (Ok (seen ++ pre ++ set_phone c (strip good) :: post)) i
      (o ++ Prompt new_phone_prompt ::
         complaints phone_complaint new_phone_prompt bad ++
         [Print (updated_line name)]).
Proof.
  induction pre as [|d pre IH]; intros seen o Hc Hpre Hgood Hbad; simpl.
  - rewrite Hc, String.eqb_refl. io_unfold.
    destruct bad as [|b bad]; simpl.
    + rewrite retry_ok by assumption. simpl. now rewrite <- app_assoc.
    + inversion_clear Hbad as [|? ? Hb Hbad'].
      rewrite (retry_attempts is_valid_phone _ _ good i) by assumption. simpl.
      now rewrite <- !app_assoc.
  - inversion_clear Hpre as [|? ? Hd Hpre'].
    rewrite name_eqb_miss by assumption.
    rewrite IH by assumption. now rewrite <- app_assoc.
Qed.

(** C5. The loop of [remove_contact], run with any name to remove,
    drops the first contact, in store order, that has this name, writes
    the removal line and keeps every other contact in place; for an
    ASCII input line, which normalises to such a name, this is what
    [remove_contact] does.  On a store with two contacts named John
    Smith only the first one is removed. *)
Theorem remove_contact_first_match (pre post : list contact) (c : contact)
    (name : string) (i : list string) (o : list event) :
  full_name c = name ->
  Forall (fun d => full_name d <> name) pre ->
  remove_scan name (pre ++ c :: post) (pre ++ c :: post) i o =
    Run (Ok (pre ++ post)) i (o ++ [Print (removed_line name)])
  /\
  forall line : string,
    is_ascii line = true ->
    normalize_name line = name ->
    remove_contact (pre ++ c :: post) (line :: i) o =
    Run (Ok (pre ++ post)) i
        (o ++ [Prompt remove_prompt; Print (removed_line name)]).
Proof.
  intros Hc Hpre. split.
  - apply (remove_scan_hit name c post pre [] i o Hc Hpre).
  - intros line _ <-. unfold remove_contact. io_unfold.
    pose proof (remove_scan_hit (normalize_name line) c post pre [] i
                  (o ++ [Prompt remove_prompt]) Hc Hpre) as H.
    simpl in H. unfold normalize_name in *. rewrite H.
    now rewrite <- app_assoc.
Qed.

Lemma remove_contact_first_match_witness :
  remove_contact
    [Contact "Jane Johnson" "(555)222-3333" "jane@example.com";
     Contact "John Smith" "(555)123-4567" "first@example.com";
     Contact "John Smith" "(555)765-4321" "second@example.com"]
    [" john SMITH "] [] =
  Run (Ok [Contact "Jane Johnson" "(555)222-3333" "jane@example.com";
           Contact "John Smith" "(555)765-4321" "second@example.com"])
      []
      [Prompt remove_prompt; Print "Contact 'John Smith' removed successfully."].
Proof.
  refine (proj2 (remove_contact_first_match
           [Contact "Jane Johnson" "(555)222-3333" "jane@example.com"]
           [Contact "John Smith" "(555)765-4321" "second@example.com"]
           (Contact "John Smith" "(555)123-4567" "first@example.com")
           "John Smith" [] [] _ _) " john SMITH " _ _).
  - reflexivity.
  - repeat constructor. discriminate.
  - reflexivity.
  - reflexivity.
Defined.

(** C6. The loop of [update_contact], run with any name to update and
    fed any number of rejected ASCII lines followed by a valid phone,
    replaces the phone of the first contact that has this name by the
    trimmed valid phone, writes the update line, and leaves the name and
    the email of that contact and every other contact as they were; for
    an ASCII input line, which normalises to such a name, this is what
    [update_contact] does. *)
Theorem update_contact_first_match (pre post : list contact) (c : contact)
    (name good : string) (bad i : list string) (o : list event) :
  Forall (fun x => is_ascii x = true) bad ->
  full_name c = name ->
  Forall (fun d => full_name d <> name) pre ->
  is_valid_phone (strip good) = true ->
  Forall (fun x => is_valid_phone (strip x) = false) bad ->
  update_scan name [] (pre ++ c :: post) (bad ++ good :: i) o =
    Run (Ok (pre ++ Contact (full_name c) (strip good) (email c) :: post)) i
        (o ++ Prompt new_phone_prompt ::
           complaints phone_complaint new_phone_prompt bad ++
           [Print (updated_line name)])
  /\
  forall line : string,
    is_ascii line = true ->
    normalize_name line = name ->
    update_contact (pre ++ c :: post) (line :: bad ++ good :: i) o =
    Run (Ok (pre ++ Contact (full_name c) (strip good) (email c) :: post)) i
        (o ++ Prompt update_prompt :: Prompt new_phone_prompt ::
           complaints phone_complaint new_phone_prompt bad ++
           [Print (updated_line name)]).
Proof.
  intros _ Hc Hpre Hgood Hbad. split.
  - apply (update_scan_hit name c post good bad i pre [] o Hc Hpre Hgood Hbad).
  - intros line _ <-. unfold update_contact. io_unfold.
    pose proof (update_scan_hit (normalize_name line) c post good bad i pre []
                  (o ++ [Prompt update_prompt]) Hc Hpre Hgood Hbad) as H.
    unfold normalize_name in *. rewrite H. simpl.
    now rewrite <- app_assoc.
Qed.

Lemma update_contact_first_match_witness :
  update_contact
    [Contact "Jane Johnson" "(555)222-3333" "jane@example.com";
     Contact "John Smith" "(555)123-4567" "first@example.com";
     Contact "John Smith" "(555)765-4321" "second@example.com"]
    ["john smith"; "555-123-4567"; " (555)999-0000 "] [] =
  Run (Ok [Contact "Jane Johnson" "(555)222-3333" "jane@example.com";
           Contact "John Smith" "(555)999-0000" "first@example.com";
           Contact "John Smith" "(555)765-4321" "second@example.com"])
      []
      [Prompt update_prompt; Prompt new_phone_prompt;
       Print phone_complaint; Prompt new_phone_prompt;
       Print "Phone number for 'John Smith' updated successfully."].
Proof.
  refine (proj2 (update_contact_first_match
           [Contact "Jane Johnson" "(555)222-3333" "jane@example.com"]
           [Contact "John Smith" "(555)765-4321" "second@example.com"]
           (Contact "John Smith" "(555)123-4567" "first@example.com")
           "John Smith" " (555)999-0000 " ["555-123-4567"] [] [] _ _ _ _ _)
           "john smith" _ _).
  - repeat constructor.
  - reflexivity.
  - repeat constructor. discriminate.
  - reflexivity.
  - repeat constructor.
  - reflexivity.
  - reflexivity.
Defined.

(** C9. The loops of [remove_contact] and [update_contact], run with
    any name that no contact of the store has, write the not-found line,
    read nothing and return the store as it was; for an ASCII input
    line, which normalises to such a name, this is what [remove_contact]
    and [update_contact] do. *)
Theorem lookup_miss_no_change (contacts : list contact)
    (name : string) (i : list string) (o : list event) :
  Forall (fun d => full_name d <> name) contacts ->
  (remove_scan name contacts contacts i o =
     Run (Ok contacts) i (o ++ [Print (not_found_line name)])
   /\
   update_scan name [] contacts i o =
     Run (Ok contacts) i (o ++ [Print (not_found_line name)]))
  /\
  forall line : string,
    is_ascii line = true ->
    normalize_name line = name ->
    remove_contact contacts (line :: i) o =
      Run (Ok contacts) i
          (o ++ [Prompt remove_prompt; Print (not_found_line name)])
    /\
    update_contact contacts (line :: i) o =
      Run (Ok contacts) i
          (o ++ [Prompt update_prompt; Print (not_found_line name)]).
Proof.
  intros H. split.
  - split.
    + now apply remove_scan_miss.
    + now rewrite update_scan_miss.
  - intros line _ <-.
    unfold remove_contact, update_contact, normalize_name in *.
    io_unfold. split.
    + rewrite remove_scan_miss by assumption. now rewrite <- app_assoc.
    + rewrite update_scan_miss by assumption. now rewrite <- app_assoc.
Qed.

Lemma lookup_miss_no_change_witness :
  remove_contact [Contact "Jane Johnson" "(555)222-3333" "jane@example.com"]
                 ["john smith"; "(555)999-0000"] [] =
    Run (Ok [Contact "Jane Johnson" "(555)222-3333" "jane@example.com"])
        ["(555)999-0000"]
        [Prompt remove_prompt; Print "No contact found with the name 'John Smith'."]
  /\
  update_contact [Contact "Jane Johnson" "(555)222-3333" "jane@example.com"]
                 ["john smith"; "(555)999-0000"] [] =
    Run (Ok [Contact "Jane Johnson" "(555)222-3333" "jane@example.com"])
        ["(555)999-0000"]
        [Prompt update_prompt; Print "No contact found with the name 'John Smith'."].
Proof.
  refine (proj2 (lookup_miss_no_change
           [Contact "Jane Johnson" "(555)222-3333" "jane@example.com"]
           "John Smith" ["(555)999-0000"] [] _) "john smith" _ _).
  - repeat constructor. discriminate.
  - reflexivity.
  - reflexivity.
Defined.

(** ** The store invariant *)

Lemma contains_char (a : ascii) : forall s,
  contains (str1 a) s = any_char (Ascii.eqb a) s.
Proof.
  induction s as [|c s IH]; simpl; [reflexivity|].
  now rewrite andb_true_r, IH.
Qed.

Lemma any_char_lower (a : ascii) :
  (forall c, Ascii.eqb a (to_lower c) = Ascii.eqb a c) ->
  forall s, any_char (Ascii.eqb a) (lower s) = any_char (Ascii.eqb a) s.
Proof.
  intros Ha. induction s as [|c s IH]; simpl; [reflexivity|].
  now rewrite Ha, IH.
Qed.

Lemma at_sign_lower c : Ascii.eqb "@" (to_lower c) = Ascii.eqb "@" c.
Proof. ascii_cases c; reflexivity. Qed.

Lemma dot_lower c : Ascii.eqb "." (to_lower c) = Ascii.eqb "." c.
Proof. ascii_cases c; reflexivity. Qed.

(** Lower-casing an email keeps it valid. *)
Lemma is_valid_email_lower e : is_valid_email (lower e) = is_valid_email e.
Proof.
  unfold is_valid_email.
  change "@" with (str1 "@"). change "." with (str1 ".").
  rewrite !contains_char.
  now rewrite (any_char_lower _ at_sign_lower), (any_char_lower _ dot_lower).
Qed.

(** [add_contact] appends one contact, whose phone and email passed the
    checks before the contact was built. *)
Lemma add_contact_valid contacts i o contacts' :
  value (add_contact contacts i o) = Ok contacts' ->
  exists c, contacts' = contacts ++ [c] /\ valid_contact c.
Proof.
  unfold add_contact. io_unfold.
  destruct i as [|l1 [|l2 i]]; simpl; try discriminate.
  destruct (retry is_valid_phone phone_complaint phone_prompt (strip l2) i _)
    as [[p|e] i2 o2] eqn:E1; simpl; [|discriminate].
  destruct i2 as [|l3 i2]; simpl; [discriminate|].
  destruct (retry is_valid_email email_complaint "Enter email: " (strip l3) i2 _)
    as [[m|e] i3 o3] eqn:E2; simpl; [|discriminate].
  intros [= <-]. eexists. split; [reflexivity|]. split; simpl.
  - eapply retry_value. rewrite E1. reflexivity.
  - rewrite is_valid_email_lower. eapply retry_value. rewrite E2. reflexivity.
Qed.

Lemma list_remove_Forall (P : contact -> Prop) (c : contact) : forall l l',
  list_remove c l = Some l' -> Forall P l -> Forall P l'.
Proof.
  induction l as [|d l IH]; intros l'; simpl; [discriminate|].
  intros H Hl. inversion_clear Hl as [|? ? Hd Hl'].
  destruct (decide (d = c)).
  - now injection H as <-.
  - destruct (list_remove c l) as [r|]; [|discriminate].
    injection H as <-. constructor; eauto.
Qed.

Lemma remove_scan_Forall (P : contact -> Prop) name contacts : forall todo i o s',
  value (remove_scan name contacts todo i o) = Ok s' ->
  Forall P contacts -> Forall P s'.
Proof.
  induction todo as [|d todo IH]; intros i o s'; simpl.
  - io_unfold. now intros [= <-].
  - destruct (String.eqb (full_name d) name); [|apply IH].
    destruct (list_remove d contacts) as [r|] eqn:E; io_unfold; [|discriminate].
    intros [= <-]. now apply list_remove_Forall with (c := d) (l := contacts).
Qed.

Lemma update_scan_valid name : forall todo seen i o s',
  value (update_scan name seen todo i o) = Ok s' ->
  Forall valid_contact seen -> Forall valid_contact todo ->
  Forall valid_contact s'.
Proof.
  induction todo as [|d todo IH]; intros seen i o s'; simpl.
  - io_unfold. now intros [= <-].
  - destruct (String.eqb (full_name d) name).
    + io_unfold. destruct i as [|l i]; simpl; [discriminate|].
      destruct (retry is_valid_phone phone_complaint new_phone_prompt (strip l) i _)
        as [[p|e] i2 o2] eqn:E; simpl; [|discriminate].
      intros [= <-] Hseen Htodo.
      inversion_clear Htodo as [|? ? [_ Hd] Htodo'].
      apply Forall_app. split; [assumption|]. constructor; [|assumption].
      split; [|exact Hd]. simpl. eapply retry_value. rewrite E. reflexivity.
    + intros H Hseen Htodo. inversion_clear Htodo as [|? ? Hd Htodo'].
      apply (IH _ _ _ _ H); [|assumption].
      apply Forall_app. split; [assumption | now constructor].
Qed.

Lemma step_valid s s' :
  step s s' -> Forall valid_contact s -> Forall valid_contact s'.
Proof.
  intros [s0 s1 i o H | s0 s1 i o H | s0 s1 i o H] Hs.
  - apply add_contact_valid in H as (c & -> & Hc).
    apply Forall_app. split; [assumption | now constructor].
  - unfold remove_contact in H. revert H. io_unfold.
    destruct i as [|l i]; simpl; [discriminate|].
    intros H. now apply (remove_scan_Forall _ _ _ _ _ _ _ H).
  - unfold update_contact in H. revert H. io_unfold.
    destruct i as [|l i]; simpl; [discriminate|].
    intros H. now apply (update_scan_valid _ _ _ _ _ _ H).
Qed.



(** ** Loading *)

(** C7. When the file does not exist, [load_contacts] writes the
    warning and returns the empty list; nothing is raised. *)
Theorem load_contacts_absent (fs : gmap string string) (filename : string)
    (i : list string) (o : list event) :
  fs !! filename = None ->
  load_contacts fs filename i o =
  Run (Ok []) i (o ++ [Print (not_found_warning filename)]).
Proof. intros H. unfold load_contacts. now rewrite H. Qed.

Lemma load_contacts_absent_witness :
  load_contacts ∅ "contacts.csv" [] [] =
  Run (Ok []) []
      [Print "File contacts.csv not found. Starting with an empty contact list."].
Proof. apply (load_contacts_absent ∅ "contacts.csv" [] []). reflexivity. Defined.


(** ** The round trip through the file *)

(** *** Text-mode reading of what the writer wrote *)

Lemma app_cons_nonempty (a : string) (c : ascii) (t : string) :
  a +:+ String c t <> EmptyString.
Proof. destruct a; discriminate. Qed.

Lemma any_char_app P (a b : string) :
  any_char P (a +:+ b) = any_char P a || any_char P b.
Proof.
  induction a as [|x a IH]; simpl; [reflexivity|].
  now rewrite IH, orb_assoc.
Qed.

Lemma universal_newlines_app (x t : string) :
  has_cr x = false ->
  universal_newlines (x +:+ t) = x +:+ universal_newlines t.
Proof.
  unfold has_cr. induction x as [|c x IH]; simpl; [reflexivity|].
  intros [Hc Hx]%orb_false_iff. now rewrite Hc, IH.
Qed.

Lemma universal_newlines_crlf (t : string) :
  universal_newlines (lineterminator +:+ t) = String LF (universal_newlines t).
Proof. reflexivity. Qed.

Lemma has_cr_double_quotes x : has_cr (double_quotes x) = has_cr x.
Proof.
  unfold has_cr. induction x as [|c x IH]; simpl; [reflexivity|].
  destruct (Ascii.eqb_spec c DQUOTE) as [->|Hc]; simpl; now rewrite IH.
Qed.

Lemma has_cr_write_field x : has_cr x = false -> has_cr (write_field x) = false.
Proof.
  intros H. unfold write_field. destruct (any_char must_quote x); [|assumption].
  pose proof (has_cr_double_quotes x) as E.
  unfold has_cr in *. simpl. rewrite any_char_app. simpl.
  now rewrite orb_false_r, E.
Qed.

(** *** The reader, one character at a time *)

Lemma readlines_nonempty (t : string) : t <> EmptyString -> readlines t <> [].
Proof.
  destruct t as [|c t]; [congruence|]. intros _. simpl.
  destruct (Ascii.eqb c LF); [discriminate|].
  destruct (readlines t); discriminate.
Qed.

(** A character other than LF, with more text after it, is one step of
    the parser within the current line. *)
Lemma reader_char (p p' : parser) (c : ascii) (t : string) :
  Ascii.eqb c LF = false ->
  t <> EmptyString ->
  parse_process_char p (Chr c) = Ok p' ->
  reader_from p (readlines (String c t)) = reader_from p' (readlines t).
Proof.
  intros Hc Ht Hstep. simpl. rewrite Hc.
  destruct (readlines t) as [|line lines] eqn:E.
  - now apply readlines_nonempty in Ht.
  - simpl. now rewrite Hstep.
Qed.

(** An LF ends the line: the parser sees it, then the end-of-line
    mark. *)
Lemma reader_newline (p p1 p2 : parser) (t : string) :
  parse_process_char p (Chr LF) = Ok p1 ->
  parse_process_char p1 EOL = Ok p2 ->
  reader_from p (readlines (String LF t)) =
  if bool_decide (state p2 = START_RECORD)
  then cons_row (fields p2) (reader_from parse_reset (readlines t))
  else reader_from p2 (readlines t).
Proof. intros H1 H2. simpl. now rewrite H1, H2. Qed.

#[local] Arguments readlines : simpl never.
#[local] Arguments reader_from : simpl never.

Lemma must_quote_false c :
  must_quote c = false ->
  Ascii.eqb c COMMA = false /\ Ascii.eqb c DQUOTE = false /\
  Ascii.eqb c CR = false /\ Ascii.eqb c LF = false.
Proof.
  unfold must_quote. intros H.
  apply orb_false_iff in H as [H H4]. apply orb_false_iff in H as [H H3].
  apply orb_false_iff in H as [H1 H2]. auto.
Qed.

Lemma length_append (a b : string) :
  String.length (a +:+ b) = String.length a + String.length b.
Proof. induction a as [|c a IH]; simpl; [reflexivity | now rewrite IH]. Qed.

Lemma add_char_ok (p : parser) (next : pstate) (c : ascii) :
  (N.of_nat (String.length (field p)) < field_limit)%N ->
  parse_add_char p next c = Ok (Parser next (field p +:+ str1 c) (fields p)).
Proof.
  intros H. unfold parse_add_char. now rewrite (proj2 (N.leb_gt _ _) H).
Qed.

Lemma add_char_full (p : parser) (next : pstate) (c : ascii) :
  (field_limit <= N.of_nat (String.length (field p)))%N ->
  parse_add_char p next c = Raise CsvError.
Proof.
  intros H. unfold parse_add_char. now rewrite (proj2 (N.leb_le _ _) H).
Qed.

(** The inside of a quoted field, up to the closing quote. *)
Lemma reader_quoted_body (fs : list string) (t : string) : forall x b,
  t <> EmptyString ->
  (N.of_nat (String.length b + String.length x) <= field_limit)%N ->
  reader_from (Parser IN_QUOTED_FIELD b fs)
              (readlines (double_quotes x +:+ String DQUOTE t)) =
  reader_from (Parser QUOTE_IN_QUOTED_FIELD (b +:+ x) fs) (readlines t).
Proof.
  induction x as [|c x IH]; intros b Ht Hlen; simpl.
  - rewrite append_nil_r.
    now apply reader_char.
  - simpl in Hlen.
    assert (Hadd : forall st next,
              parse_add_char (Parser st b fs) next c =
              Ok (Parser next (b +:+ str1 c) fs)).
    { intros st next. apply add_char_ok. simpl. lia. }
    assert (Hlen' : (N.of_nat (String.length (b +:+ str1 c) + String.length x)
                     <= field_limit)%N).
    { rewrite length_append. simpl. lia. }
    destruct (Ascii.eqb_spec c DQUOTE) as [->|Hq].
    + simpl.
      rewrite (reader_char _ (Parser QUOTE_IN_QUOTED_FIELD b fs));
        [|reflexivity|discriminate|reflexivity].
      rewrite (reader_char _ (Parser IN_QUOTED_FIELD (b +:+ str1 DQUOTE) fs));
        [|reflexivity|apply app_cons_nonempty|].
      * rewrite IH by assumption. now rewrite append_assoc.
      * unfold parse_process_char. simpl. change (Ascii.eqb DQUOTE DQUOTE) with true.
        cbv iota. apply Hadd.
    + apply Ascii.eqb_neq in Hq. simpl.
      assert (Hstep : parse_process_char (Parser IN_QUOTED_FIELD b fs) (Chr c)
                      = Ok (Parser IN_QUOTED_FIELD (b +:+ str1 c) fs)).
      { unfold parse_process_char. simpl. rewrite Hq. apply Hadd. }
      destruct (Ascii.eqb_spec c LF) as [->|Hn].
      * rewrite (reader_newline _ _ _ _ Hstep eq_refl). simpl.
        rewrite IH by assumption. now rewrite append_assoc.
      * apply Ascii.eqb_neq in Hn.
        rewrite (reader_char _ _ _ _ Hn (app_cons_nonempty _ _ _) Hstep).
        rewrite IH by assumption. now rewrite append_assoc.
Qed.

Lemma in_field_step (b : string) (fs : list string) (c : ascii) :
  must_quote c = false ->
  parse_process_char (Parser IN_FIELD b fs) (Chr c) =
  parse_add_char (Parser IN_FIELD b fs) IN_FIELD c.
Proof.
  intros Hc. apply must_quote_false in Hc as (Hcomma & _ & Hcr & Hlf).
  unfold parse_process_char, is_newline. simpl. now rewrite Hlf, Hcr, Hcomma.
Qed.

(** The rest of an unquoted field. *)
Lemma reader_unquoted_body (fs : list string) (t : string) : forall x b,
  any_char must_quote x = false ->
  t <> EmptyString ->
  (N.of_nat (String.length b + String.length x) <= field_limit)%N ->
  reader_from (Parser IN_FIELD b fs) (readlines (x +:+ t)) =
  reader_from (Parser IN_FIELD (b +:+ x) fs) (readlines t).
Proof.
  induction x as [|c x IH]; intros b Hx Ht Hlen; simpl.
  - now rewrite append_nil_r.
  - simpl in Hx, Hlen. apply orb_false_iff in Hx as [Hc Hx].
    pose proof (must_quote_false c Hc) as (_ & _ & _ & Hlf).
    rewrite (reader_char _ (Parser IN_FIELD (b +:+ str1 c) fs)); [|assumption| |].
    + rewrite IH; [now rewrite append_assoc | assumption | assumption |].
      rewrite length_append. simpl. lia.
    + destruct x; [assumption | discriminate].
    + rewrite in_field_step by assumption. apply add_char_ok. simpl. lia.
Qed.

(** A character other than LF that the parser refuses. *)
Lemma reader_char_raise (p : parser) (c : ascii) (t : string) (e : exn) :
  Ascii.eqb c LF = false ->
  t <> EmptyString ->
  parse_process_char p (Chr c) = Raise e ->
  reader_from p (readlines (String c t)) = Raise e.
Proof.
  intros Hc Ht Hstep. unfold readlines; fold readlines. rewrite Hc.
  destruct (readlines t) as [|line lines] eqn:E.
  - now apply readlines_nonempty in Ht.
  - unfold reader_from; fold reader_from. unfold process_line; fold process_line.
    now rewrite Hstep.
Qed.

(** An unquoted field longer than the limit makes the reader fail. *)
Lemma reader_unquoted_overflow (fs : list string) (t : string) : forall x b,
  any_char must_quote x = false ->
  t <> EmptyString ->
  (N.of_nat (String.length b) <= field_limit)%N ->
  (field_limit < N.of_nat (String.length b + String.length x))%N ->
  reader_from (Parser IN_FIELD b fs) (readlines (x +:+ t)) = Raise CsvError.
Proof.
  induction x as [|c x IH]; intros b Hx Ht Hb Hlen; simpl in *.
  - lia.
  - apply orb_false_iff in Hx as [Hc Hx].
    pose proof (must_quote_false c Hc) as (_ & _ & _ & Hlf).
    destruct (N.eq_dec (N.of_nat (String.length b)) field_limit) as [E|N].
    + apply reader_char_raise; [assumption | now destruct x |].
      rewrite in_field_step by assumption. apply add_char_full. simpl. lia.
    + rewrite (reader_char _ (Parser IN_FIELD (b +:+ str1 c) fs)); [|assumption| |].
      * apply IH; [assumption | assumption | |]; rewrite length_append; simpl; lia.
      * destruct x; [assumption | discriminate].
      * rewrite in_field_step by assumption. apply add_char_ok. simpl. lia.
Qed.

(** A written field and the text after it, from the start of a field:
    the parser has read the field and stands before the separator. *)
Lemma reader_field (st : pstate) (fs : list string) (x t : string) :
  field_start st ->
  t <> EmptyString ->
  fits x ->
  exists st', 
    (st' = st \/ st' = IN_FIELD \/ st' = QUOTE_IN_QUOTED_FIELD) /\
    (st' = st -> x = EmptyString) /\
    reader_from (Parser st EmptyString fs) (readlines (write_field x +:+ t)) =
    reader_from (Parser st' x fs) (readlines t).
Proof.
  intros Hst Ht Hfit. unfold fits in Hfit. unfold write_field.
  destruct (any_char must_quote x) eqn:Hq.
  - exists QUOTE_IN_QUOTED_FIELD. split; [auto|]. split.
    { intros <-. destruct Hst; discriminate. }
    simpl. rewrite append_assoc. simpl.
    rewrite (reader_char _ (Parser IN_QUOTED_FIELD EmptyString fs));
      [|reflexivity|apply app_cons_nonempty|destruct Hst as [->| ->]; reflexivity].
    now rewrite reader_quoted_body.
  - destruct x as [|c x].
    + exists st. auto.
    + exists IN_FIELD. split; [auto|]. split.
      { intros <-. destruct Hst; discriminate. }
      simpl in Hq, Hfit. apply orb_false_iff in Hq as [Hc Hx].
      apply must_quote_false in Hc as (Hcomma & Hdq & Hcr & Hlf). simpl.
      rewrite (reader_char _ (Parser IN_FIELD (str1 c) fs)); [|assumption| |].
      * rewrite reader_unquoted_body; [reflexivity | assumption | assumption |].
        simpl. lia.
      * destruct x; [assumption | discriminate].
      * unfold parse_process_char, is_newline.
        destruct Hst as [->| ->]; simpl; rewrite Hlf, Hcr, Hdq, Hcomma;
          apply add_char_ok; simpl; lia.
Qed.

(** *** Fields, rows and files *)

Lemma reader_field_comma (st : pstate) (fs : list string) (x t : string) :
  field_start st ->
  t <> EmptyString ->
  fits x ->
  reader_from (Parser st EmptyString fs)
              (readlines (write_field x +:+ String COMMA t)) =
  reader_from (Parser START_FIELD EmptyString (fs ++ [x])) (readlines t).
Proof.
  intros Hst Ht Hfit.
  destruct (reader_field st fs x (String COMMA t) Hst) as (st' & Hst' & Hx & ->);
    [discriminate|assumption|].
  apply reader_char; [reflexivity | assumption |].
  destruct Hst' as [E | [-> | ->]]; [|reflexivity..].
  rewrite (Hx E). subst st'. destruct Hst as [-> | ->]; reflexivity.
Qed.

Lemma reader_field_newline (fs : list string) (x t : string) :
  fits x ->
  reader_from (Parser START_FIELD EmptyString fs)
              (readlines (write_field x +:+ String LF t)) =
  cons_row (fs ++ [x]) (reader_from parse_reset (readlines t)).
Proof.
  intros Hfit.
  destruct (reader_field START_FIELD fs x (String LF t)) as (st' & Hst' & Hx & ->);
    [now right | discriminate | assumption |].
  rewrite (reader_newline _ (Parser EAT_CRNL EmptyString (fs ++ [x]))
             (Parser START_RECORD EmptyString (fs ++ [x]))); [reflexivity| |reflexivity].
  destruct Hst' as [E | [-> | ->]]; [|reflexivity..].
  rewrite (Hx E). subst st'. reflexivity.
Qed.

(** A row of three written fields, ended by LF, is read back as these
    three fields. *)
Lemma reader_row (a b c t : string) :
  fits a -> fits b -> fits c ->
  reader_from parse_reset (readlines (join_fields [a; b; c] +:+ String LF t)) =
  cons_row [a; b; c] (reader_from parse_reset (readlines t)).
Proof.
  intros Ha Hb Hc.
  simpl. rewrite !append_assoc. simpl. rewrite !append_assoc. simpl.
  unfold parse_reset.
  rewrite reader_field_comma; [|now left|apply app_cons_nonempty|assumption].
  rewrite reader_field_comma; [|now right|apply app_cons_nonempty|assumption].
  now rewrite reader_field_newline.
Qed.

Lemma writerow_three (a b c : string) :
  writerow [a; b; c] = join_fields [a; b; c] +:+ lineterminator.
Proof.
  unfold writerow. simpl. destruct (write_field a); reflexivity.
Qed.

Lemma has_cr_app (a b : string) : has_cr (a +:+ b) = has_cr a || has_cr b.
Proof. apply any_char_app. Qed.

Lemma has_cr_cons (c : ascii) (s : string) :
  has_cr (String c s) = Ascii.eqb c CR || has_cr s.
Proof. reflexivity. Qed.

Lemma universal_newlines_row (a b c t : string) :
  has_cr a = false -> has_cr b = false -> has_cr c = false ->
  universal_newlines (writerow [a; b; c] +:+ t) =
  join_fields [a; b; c] +:+ String LF (universal_newlines t).
Proof.
  intros Ha Hb Hc. rewrite writerow_three, append_assoc.
  rewrite universal_newlines_app; [now rewrite universal_newlines_crlf|].
  simpl. repeat (rewrite has_cr_app || rewrite has_cr_cons).
  now rewrite !has_cr_write_field by assumption.
Qed.

Lemma reader_rows_text : forall contacts : list contact,
  Forall cr_free contacts ->
  Forall fields_fit contacts ->
  reader_from parse_reset (readlines (universal_newlines (rows_text contacts))) =
  Ok (row_of <$> contacts).
Proof.
  induction contacts as [|c contacts IH]; intros H F; [reflexivity|].
  inversion_clear H as [|? ? (Hn & Hp & He) H'].
  inversion_clear F as [|? ? (Fn & Fp & Fe) F'].
  change (rows_text (c :: contacts))
    with (writerow [full_name c; phone c; email c] +:+ rows_text contacts).
  rewrite universal_newlines_row by assumption.
  rewrite reader_row, IH by assumption. reflexivity.
Qed.

Ltac fits_tac := unfold fits, field_limit; simpl; lia.

Lemma reader_header (t : string) :
  reader_from parse_reset
    (readlines (universal_newlines (writerow fieldnames +:+ t))) =
  cons_row fieldnames (reader_from parse_reset (readlines (universal_newlines t))).
Proof.
  change (writerow fieldnames) with (writerow ["Full Name"; "phone"; "email"]).
  rewrite universal_newlines_row by reflexivity.
  now rewrite reader_row by fits_tac.
Qed.

(** *** Dictionaries *)

Lemma dict_to_list_to_dict (c : contact) :
  dict_to_list fieldnames (to_dict c) = Ok (row_of c).
Proof.
  unfold dict_to_list, to_dict, fieldnames. simpl.
  rewrite bool_decide_eq_true_2.
  - unfold row_of. repeat f_equal; now simplify_map_eq.
  - rewrite !dom_insert_L, dom_empty_L. set_solver.
Qed.

Lemma write_rows_to_dict : forall (contacts : list contact) (written : string),
  write_rows (to_dict <$> contacts) written =
  (Ok tt, written +:+ rows_text contacts).
Proof.
  induction contacts as [|c contacts IH]; intros written; simpl.
  - now rewrite append_nil_r.
  - rewrite dict_to_list_to_dict, IH. now rewrite append_assoc.
Qed.

Lemma DictReader_rows (contacts : list contact) :
  DictReader (fieldnames :: (row_of <$> contacts)) = to_dict <$> contacts.
Proof.
  unfold DictReader.
  induction contacts as [|c contacts IH]; simpl; [reflexivity|].
  f_equal. exact IH.
Qed.

Lemma of_dict_to_dict (c : contact) : of_dict (to_dict c) = Some c.
Proof.
  destruct c as [n p e]. unfold of_dict, to_dict. simpl.
  simplify_map_eq. rewrite bool_decide_eq_true_2; [reflexivity|].
  rewrite !map_size_insert_None by now simplify_map_eq.
  now rewrite map_size_empty.
Qed.

(** The file written for a store is read back as that store. *)
Lemma load_saved_text (contacts : list contact) (filename : string)
    (fs : gmap string string) (i : list string) (o : list event) :
  Forall cr_free contacts ->
  Forall fields_fit contacts ->
  load_contacts (<[filename := writerow fieldnames +:+ rows_text contacts]> fs)
                filename i o =
  Run (Ok (to_dict <$> contacts)) i o.
Proof.
  intros H F. unfold load_contacts. rewrite lookup_insert_eq. unfold reader.
  rewrite reader_header, reader_rows_text by assumption.
  change (cons_row ?r (Ok ?rows)) with (Ok (r :: rows)). cbv beta iota.
  now rewrite DictReader_rows.
Qed.

Lemma mapM_of_dict (contacts : list contact) :
  mapM of_dict (to_dict <$> contacts) = Some contacts.
Proof.
  apply mapM_Some. induction contacts as [|c contacts IH]; simpl.
  - constructor.
  - constructor; [apply of_dict_to_dict | assumption].
Qed.

(** *** A field beyond the limit *)

Lemma length_repeat_char c : forall n, String.length (repeat_char n c) = n.
Proof. induction n as [|n IH]; simpl; [reflexivity | now rewrite IH]. Qed.

Lemma any_char_repeat_char P c : P c = false ->
  forall n, any_char P (repeat_char n c) = false.
Proof. intros H. induction n as [|n IH]; simpl; [reflexivity | now rewrite H]. Qed.

(** A store whose first contact has a plain name longer than the limit
    is saved, but the file cannot be read back. *)
Lemma load_long_name (n : nat) (c : ascii) (p e filename : string)
    (more : list contact) (fs : gmap string string)
    (i : list string) (o : list event) :
  must_quote c = false ->
  (field_limit < N.of_nat n)%N ->
  (save_contacts (to_dict <$> Contact (repeat_char n c) p e :: more) filename fs).1
    = Ok tt /\
  load_contacts
    (save_contacts (to_dict <$> Contact (repeat_char n c) p e :: more) filename fs).2
    filename i o = Run (Raise CsvError) i o.
Proof.
  intros Hc Hn. unfold save_contacts. rewrite write_rows_to_dict.
  cbv beta iota. cbn [fst snd]. split; [reflexivity|].
  unfold load_contacts. rewrite lookup_insert_eq. unfold reader.
  rewrite reader_header.
  change (rows_text (Contact (repeat_char n c) p e :: more))
    with (writerow [repeat_char n c; p; e] +:+ rows_text more).
  rewrite writerow_three, append_assoc.
  pose proof (must_quote_false c Hc) as (Hcomma & Hdq & Hcr & Hlf).
  assert (Hplain : any_char must_quote (repeat_char n c) = false)
    by now apply any_char_repeat_char.
  assert (Hw : write_field (repeat_char n c) = repeat_char n c)
    by (unfold write_field; now rewrite Hplain).
  change (join_fields [repeat_char n c; p; e])
    with (write_field (repeat_char n c) +:+
          String COMMA (write_field p +:+ String COMMA (write_field e))).
  rewrite Hw, append_assoc.
  rewrite universal_newlines_app
    by (apply (any_char_repeat_char (fun x => Ascii.eqb x CR)); exact Hcr).
  destruct n as [|n]; [unfold field_limit in Hn; lia|].
  set (tail := universal_newlines _).
  assert (Htail : tail <> EmptyString).
  { subst tail. change (String COMMA ?a +:+ ?b) with (String COMMA (a +:+ b)).
    simpl. destruct (Ascii.eqb COMMA CR); discriminate. }
  change (repeat_char (S n) c) with (String c (repeat_char n c)).
  change (String c (repeat_char n c) +:+ tail)
    with (String c (repeat_char n c +:+ tail)).
  unfold parse_reset.
  rewrite (reader_char _ (Parser IN_FIELD (str1 c) []));
    [|assumption|destruct (repeat_char n c); [assumption | discriminate]|].
  - rewrite reader_unquoted_overflow; [reflexivity| | assumption | |].
    + now apply any_char_repeat_char.
    + unfold field_limit. simpl. lia.
    + rewrite length_repeat_char. simpl. lia.
  - unfold parse_process_char, is_newline. simpl. rewrite Hlf, Hcr, Hdq, Hcomma.
    apply add_char_ok. unfold field_limit. simpl. lia.
Qed.

(** C2, as the claim states it, fails in two ways.  A carriage return
    inside a field is quoted by the writer, yet it comes back as a line
    feed, the file being read with newline translation: the contact
    loaded is not the contact saved.  And a field beyond the limit of
    the reader cannot be read back: a contact with a valid phone, a
    valid email and a name of 131073 letters, which needs no quoting, is
    saved, and loading the file raises the error of the [csv] module. *)
Lemma save_then_load_fails :
  (valid_contact (Contact ("A" +:+ str1 CR +:+ "B") "(555)123-4567" "a@b.c")
   /\
   (save_contacts
      [to_dict (Contact ("A" +:+ str1 CR +:+ "B") "(555)123-4567" "a@b.c")]
      "contacts.csv" ∅).1 = Ok tt
   /\
   (save_contacts
      [to_dict (Contact ("A" +:+ str1 CR +:+ "B") "(555)123-4567" "a@b.c")]
      "contacts.csv" ∅).2 !! "contacts.csv" =
   Some ("Full Name,phone,email" +:+ lineterminator +:+
         str1 DQUOTE +:+ "A" +:+ str1 CR +:+ "B" +:+ str1 DQUOTE +:+
         ",(555)123-4567,a@b.c" +:+ lineterminator)
   /\
   load_contacts
     (save_contacts
        [to_dict (Contact ("A" +:+ str1 CR +:+ "B") "(555)123-4567" "a@b.c")]
        "contacts.csv" ∅).2
     "contacts.csv" [] [] =
   Run (Ok [to_dict (Contact ("A" +:+ str1 LF +:+ "B") "(555)123-4567" "a@b.c")])
       [] []
   /\
   to_dict (Contact ("A" +:+ str1 LF +:+ "B") "(555)123-4567" "a@b.c") <>
   to_dict (Contact ("A" +:+ str1 CR +:+ "B") "(555)123-4567" "a@b.c"))
  /\
  (valid_contact
     (Contact (repeat_char (N.to_nat 131073) "a") "(555)123-4567" "a@example.com")
   /\
   any_char must_quote (repeat_char (N.to_nat 131073) "a") = false
   /\
   (save_contacts
      [to_dict (Contact (repeat_char (N.to_nat 131073) "a") "(555)123-4567"
                        "a@example.com")]
      "contacts.csv" ∅).1 = Ok tt
   /\
   load_contacts
     (save_contacts
        [to_dict (Contact (repeat_char (N.to_nat 131073) "a") "(555)123-4567"
                          "a@example.com")]
        "contacts.csv" ∅).2
     "contacts.csv" [] [] = Run (Raise CsvError) [] []).
Proof.
  split.
  - split; [split; reflexivity|].
    split; [reflexivity|].
    split; [vm_compute; reflexivity|].
    split; [vm_compute; reflexivity|].
    intros H. apply (f_equal of_dict) in H.
    rewrite !of_dict_to_dict in H. discriminate.
  - split; [split; reflexivity|].
    split; [now apply any_char_repeat_char|].
    apply (load_long_name (N.to_nat 131073) "a" "(555)123-4567" "a@example.com"
             "contacts.csv" [] ∅ [] []); [reflexivity|].
    rewrite N2Nat.id. reflexivity.
Qed.

(** C2, amended. Saving a store none of whose fields holds a carriage
    return or has more than 131072 characters, and loading the file
    again, gives the same contacts, in the same order, with the same
    names, phones and emails. *)
Theorem save_then_load (contacts : list contact) (filename : string)
    (fs : gmap string string) (i : list string) (o : list event) :
  Forall cr_free contacts ->
  Forall fields_fit contacts ->
  (save_contacts (to_dict <$> contacts) filename fs).1 = Ok tt /\
  load_contacts (save_contacts (to_dict <$> contacts) filename fs).2 filename i o =
    Run (Ok (to_dict <$> contacts)) i o /\
  mapM of_dict (to_dict <$> contacts) = Some contacts.
Proof.
  intros H F. unfold save_contacts. rewrite write_rows_to_dict.
  cbv beta iota. cbn [fst snd].
  split; [reflexivity|]. split.
  - now apply load_saved_text.
  - apply mapM_of_dict.
Qed.

Lemma save_then_load_witness :
  load_contacts
    (save_contacts
       (to_dict <$>
          [Contact "Smith, John" "(555)123-4567" "john@example.com";
           Contact ("Jane " +:+ str1 DQUOTE +:+ "JJ" +:+ str1 DQUOTE +:+ str1 LF
                    +:+ "Johnson") "(555)222-3333" "jane@example.com"])
       "contacts.csv" ∅).2
    "contacts.csv" [] [] =
  Run (Ok (to_dict <$>
          [Contact "Smith, John" "(555)123-4567" "john@example.com";
           Contact ("Jane " +:+ str1 DQUOTE +:+ "JJ" +:+ str1 DQUOTE +:+ str1 LF
                    +:+ "Johnson") "(555)222-3333" "jane@example.com"]))
      [] [].
Proof.
  apply (save_then_load
           [Contact "Smith, John" "(555)123-4567" "john@example.com";
            Contact ("Jane " +:+ str1 DQUOTE +:+ "JJ" +:+ str1 DQUOTE +:+ str1 LF
                     +:+ "Johnson") "(555)222-3333" "jane@example.com"]
           "contacts.csv" ∅ [] []).
  - repeat constructor.
  - repeat constructor; fits_tac.
Defined.

(** A carriage return inside a field is quoted by the writer and comes
    back as a line feed: the file is read with newline translation. *)
Example carriage_return_translated :
  load_contacts
    (save_contacts
       [to_dict (Contact ("A" +:+ str1 CR +:+ "B") "(555)123-4567" "a@b.c")]
       "contacts.csv" ∅).2
    "contacts.csv" [] [] =
  Run (Ok [to_dict (Contact ("A" +:+ str1 LF +:+ "B") "(555)123-4567" "a@b.c")])
      [] [].
Proof. vm_compute. reflexivity. Qed.

(** * Further properties *)

(** ** Trimming and title-casing *)

Lemma isspace_to_upper c : isspace (to_upper c) = isspace c.
Proof. ascii_cases c; reflexivity. Qed.

Lemma isspace_to_lower c : isspace (to_lower c) = isspace c.
Proof. ascii_cases c; reflexivity. Qed.

Lemma iscased_to_upper c : iscased (to_upper c) = iscased c.
Proof. ascii_cases c; reflexivity. Qed.

Lemma iscased_to_lower c : iscased (to_lower c) = iscased c.
Proof. ascii_cases c; reflexivity. Qed.

Lemma to_upper_idem c : to_upper (to_upper c) = to_upper c.
Proof. ascii_cases c; reflexivity. Qed.

Lemma to_lower_idem c : to_lower (to_lower c) = to_lower c.
Proof. ascii_cases c; reflexivity. Qed.

Lemma to_lower_to_upper c : to_lower (to_upper c) = to_lower c.
Proof. ascii_cases c; reflexivity. Qed.

Lemma lstrip_keep c r : isspace c = false -> lstrip (String c r) = String c r.
Proof. intros H. simpl. now rewrite H. Qed.

Lemma rstrip_idem s : rstrip (rstrip s) = rstrip s.
Proof.
  induction s as [|c s IH]; simpl; [reflexivity|].
  destruct (rstrip s) as [|d r] eqn:E.
  - destruct (isspace c) eqn:Ec; simpl; [reflexivity | now rewrite Ec].
  - remember (String d r) as t. simpl. rewrite IH. now subst t.
Qed.

(** The trimmed text has no white space at either end, so trimming it
    again changes nothing. *)
Lemma strip_idem s : strip (strip s) = strip s.
Proof.
  unfold strip.
  destruct (lstrip_head s) as [-> | (c & r & -> & Hc)]; [reflexivity|].
  rewrite rstrip_cons_keep by assumption.
  rewrite lstrip_keep by assumption.
  rewrite <- rstrip_cons_keep by assumption. apply rstrip_idem.
Qed.

Lemma title_from_empty prev s : title_from prev s = EmptyString -> s = EmptyString.
Proof. destruct s; [reflexivity | discriminate]. Qed.

Lemma lstrip_title s : lstrip (title s) = title (lstrip s).
Proof.
  unfold title. induction s as [|c s IH]; simpl; [reflexivity|].
  rewrite isspace_to_upper. destruct (isspace c) eqn:E; [|reflexivity].
  now rewrite (isspace_not_cased c E).
Qed.

Lemma rstrip_title_from : forall s prev,
  rstrip (title_from prev s) = title_from prev (rstrip s).
Proof.
  induction s as [|c s IH]; intros prev; simpl; [reflexivity|].
  rewrite IH.
  assert (Hsp : isspace (if prev then to_lower c else to_upper c) = isspace c).
  { destruct prev; [apply isspace_to_lower | apply isspace_to_upper]. }
  destruct (rstrip s) as [|d r] eqn:E; simpl.
  - rewrite Hsp. now destruct (isspace c).
  - reflexivity.
Qed.

Lemma strip_title s : strip (title s) = title (strip s).
Proof. unfold strip. rewrite lstrip_title. apply rstrip_title_from. Qed.

Lemma title_from_idem : forall s prev,
  title_from prev (title_from prev s) = title_from prev s.
Proof.
  induction s as [|c s IH]; intros prev; simpl; [reflexivity|].
  destruct prev.
  - now rewrite to_lower_idem, iscased_to_lower, IH.
  - now rewrite to_upper_idem, iscased_to_upper, IH.
Qed.

(** X3. On an ASCII line, normalising a name twice gives the same
    name as normalising it once: a name typed as it is stored is looked
    up under itself. *)
Theorem normalize_name_idempotent (s : string) :
  is_ascii s = true ->
  normalize_name (normalize_name s) = normalize_name s.
Proof.
  intros _. unfold normalize_name.
  rewrite strip_title, strip_idem. apply title_from_idem.
Qed.

Lemma normalize_name_idempotent_witness :
  normalize_name (normalize_name " mary-jane o'NEIL ") =
  normalize_name " mary-jane o'NEIL ".
Proof.
  apply (normalize_name_idempotent " mary-jane o'NEIL "). reflexivity.
Defined.

(** ** Phone numbers *)

(** X1. Among ASCII strings the validator accepts those of the form
    (ddd)ddd-dddd and these followed by one line feed, and nothing
    else. *)
Theorem is_valid_phone_accepts (s : string) :
  is_ascii s = true ->
  (is_valid_phone s = true <->
   phone_format s \/ exists s0, phone_format s0 /\ s = s0 +:+ str1 LF).
Proof. intros _. apply is_valid_phone_iff. Qed.

Lemma is_valid_phone_accepts_witness :
  is_valid_phone "(555)123-456" = true <->
  phone_format "(555)123-456" \/
  exists s0, phone_format s0 /\ "(555)123-456" = s0 +:+ str1 LF.
Proof. apply (is_valid_phone_accepts "(555)123-456"). reflexivity. Defined.

(** X2. On a trimmed ASCII line the validator accepts the format and
    nothing else, so a phone that add or update stores from an ASCII
    line is an opening parenthesis, three digits, a closing parenthesis,
    three digits, a hyphen and four digits. *)
Theorem is_valid_phone_strip (line : string) :
  is_ascii line = true ->
  (is_valid_phone (strip line) = true <-> phone_format (strip line)).
Proof.
  intros _. rewrite is_valid_phone_iff. split; [|now left].
  intros [H | (s0 & _ & H)]; [assumption|].
  apply rstrip_last in H. discriminate.
Qed.

Lemma is_valid_phone_strip_witness :
  is_valid_phone (strip (" (555)123-4567" +:+ str1 LF)) = true <->
  phone_format (strip (" (555)123-4567" +:+ str1 LF)).
Proof.
  apply (is_valid_phone_strip (" (555)123-4567" +:+ str1 LF)). reflexivity.
Defined.

(** ** Reading forward *)

Lemma eof_only_ret {A : Type} (a : A) : eof_only (mret a : IO A).
Proof. intros i o. split; [reflexivity | discriminate]. Qed.

Lemma eof_only_print (s : string) : eof_only (print s).
Proof. intros i o. split; [reflexivity | discriminate]. Qed.

Lemma eof_only_input (prompt : string) : eof_only (input prompt).
Proof.
  intros [|line i] o; simpl.
  - split; [reflexivity|]. now intros e [= <-].
  - split; [lia | discriminate].
Qed.

Lemma eof_only_bind {A B : Type} (m : IO A) (k : A -> IO B) :
  eof_only m -> (forall a, eof_only (k a)) -> eof_only (m ≫= k).
Proof.
  intros Hm Hk i o. unfold mbind, io_bind.
  destruct (Hm i o) as [Hlen Hraise].
  destruct (value (m i o)) as [a|e] eqn:E; simpl.
  - destruct (Hk a (rest (m i o)) (out (m i o))) as [Hlen' Hraise'].
    split; [lia | exact Hraise'].
  - split; [exact Hlen|]. intros e' [= <-]. now apply Hraise.
Qed.

Lemma eof_only_retry valid cp pp v : eof_only (retry valid cp pp v).
Proof.
  intros i. revert v. induction i as [|line i IH]; intros v o; simpl.
  - destruct (valid v); simpl; split; try reflexivity; try discriminate.
    now intros e [= <-].
  - destruct (valid v); simpl; [split; [lia | discriminate]|].
    destruct (IH (strip line) (o ++ [Print cp; Prompt pp])) as [Hl Hr].
    split; [lia | exact Hr].
Qed.

Lemma eof_only_add_contact contacts : eof_only (add_contact contacts).
Proof.
  unfold add_contact.
  repeat first [ apply eof_only_bind; [|intros ?]
               | apply eof_only_input | apply eof_only_retry
               | apply eof_only_print | apply eof_only_ret ].
Qed.

Lemma eof_only_search_scan term : forall todo found,
  eof_only (search_scan term found todo).
Proof.
  induction todo as [|c todo IH]; intros found; simpl.
  - apply eof_only_ret.
  - destruct (contains term (lower (full_name c))); [|apply IH].
    apply eof_only_bind; [apply eof_only_print | intros _; apply IH].
Qed.

Lemma eof_only_search_contact contacts : eof_only (search_contact contacts).
Proof.
  unfold search_contact.
  apply eof_only_bind; [apply eof_only_input | intros line].
  apply eof_only_bind; [apply eof_only_search_scan | intros [|]].
  - apply eof_only_ret.
  - apply eof_only_print.
Qed.

Lemma list_remove_In (c : contact) : forall l,
  In c l -> exists l', list_remove c l = Some l'.
Proof.
  induction l as [|d l IH]; simpl; [easy|].
  intros H. destruct (decide (d = c)) as [->|Hne]; [eauto|].
  destruct H as [->|H]; [congruence|].
  destruct (IH H) as [l' ->]. simpl. eauto.
Qed.

Lemma eof_only_remove_scan name contacts : forall todo,
  (forall c, In c todo -> In c contacts) ->
  eof_only (remove_scan name contacts todo).
Proof.
  induction todo as [|c todo IH]; intros Hsub; simpl.
  - apply eof_only_bind; [apply eof_only_print | intros _; apply eof_only_ret].
  - destruct (String.eqb (full_name c) name).
    + destruct (list_remove_In c contacts) as [l' ->]; [apply Hsub; now left|].
      apply eof_only_bind; [apply eof_only_print | intros _; apply eof_only_ret].
    + apply IH. intros d Hd. apply Hsub. now right.
Qed.

Lemma eof_only_remove_contact contacts : eof_only (remove_contact contacts).
Proof.
  unfold remove_contact.
  apply eof_only_bind; [apply eof_only_input | intros line].
  now apply eof_only_remove_scan.
Qed.

Lemma eof_only_update_scan name : forall todo seen,
  eof_only (update_scan name seen todo).
Proof.
  induction todo as [|c todo IH]; intros seen; simpl.
  - apply eof_only_bind; [apply eof_only_print | intros _; apply eof_only_ret].
  - destruct (String.eqb (full_name c) name); [|apply IH].
    repeat first [ apply eof_only_bind; [|intros ?]
                 | apply eof_only_input | apply eof_only_retry
                 | apply eof_only_print | apply eof_only_ret ].
Qed.

Lemma eof_only_update_contact contacts : eof_only (update_contact contacts).
Proof.
  unfold update_contact.
  apply eof_only_bind; [apply eof_only_input | intros line].
  apply eof_only_update_scan.
Qed.

(** ** Adding *)

Lemma add_contact_run contacts name good_p good_e bad_p bad_e i o :
  is_valid_phone (strip good_p) = true ->
  Forall (fun x => is_valid_phone (strip x) = false) bad_p ->
  is_valid_email (strip good_e) = true ->
  Forall (fun x => is_valid_email (strip x) = false) bad_e ->
  add_contact contacts (name :: bad_p ++ good_p :: bad_e ++ good_e :: i) o =
  Run (Ok (contacts ++
             [Contact (normalize_name name) (strip good_p) (lower (strip good_e))]))
      i
      (o ++ Prompt "Enter full name: " :: Prompt phone_prompt ::
         complaints phone_complaint phone_prompt bad_p ++
         Prompt "Enter email: " ::
         complaints email_complaint "Enter email: " bad_e ++
         [Print "Contact added successfully!"]).
Proof.
  intros Hp Hbp He Hbe. unfold add_contact, normalize_name. io_unfold.
  assert (Hemail : forall o1,
    (line ← input "Enter email: ";
     retry is_valid_email email_complaint "Enter email: " (strip line))
      (bad_e ++ good_e :: i) o1 =
    Run (Ok (strip good_e)) i
        (o1 ++ Prompt "Enter email: " :: complaints email_complaint "Enter email: " bad_e))
    by (intros o1; now apply input_retry).
  assert (Hphone : forall o1,
    (line ← input phone_prompt;
     retry is_valid_phone phone_complaint phone_prompt (strip line))
      (bad_p ++ good_p :: bad_e ++ good_e :: i) o1 =
    Run (Ok (strip good_p)) (bad_e ++ good_e :: i)
        (o1 ++ Prompt phone_prompt :: complaints phone_complaint phone_prompt bad_p))
    by (intros o1; now apply input_retry).
  unfold mbind, io_bind in Hemail, Hphone.
  destruct bad_p as [|bp bad_p]; simpl in *.
  - specialize (Hphone (o ++ [Prompt "Enter full name: "])).
    rewrite Hphone. simpl.
    destruct bad_e as [|be bad_e]; simpl in *.
    + rewrite Hemail. simpl. repeat rewrite <- app_assoc. reflexivity.
    + rewrite Hemail. simpl. repeat rewrite <- app_assoc. reflexivity.
  - specialize (Hphone (o ++ [Prompt "Enter full name: "])).
    rewrite Hphone. simpl.
    destruct bad_e as [|be bad_e]; simpl in *.
    + rewrite Hemail. simpl. repeat rewrite <- app_assoc. reflexivity.
    + rewrite Hemail. simpl. repeat rewrite <- app_assoc. reflexivity.
Qed.

(** X4. Given ASCII lines: a name, any number of rejected phones
    followed by a valid one and any number of rejected emails followed
    by a valid one,
    [add_contact] appends one contact made of the normalised name, the
    trimmed phone and the trimmed, lower-cased email; the contacts
    already in the store are kept, duplicates included. *)
Theorem add_contact_accepts (contacts : list contact)
    (name good_p good_e : string) (bad_p bad_e i : list string) (o : list event) :
  Forall (fun x => is_ascii x = true)
         (name :: bad_p ++ good_p :: bad_e ++ [good_e]) ->
  is_valid_phone (strip good_p) = true ->
  Forall (fun x => is_valid_phone (strip x) = false) bad_p ->
  is_valid_email (strip good_e) = true ->
  Forall (fun x => is_valid_email (strip x) = false) bad_e ->
  add_contact contacts (name :: bad_p ++ good_p :: bad_e ++ good_e :: i) o =
  Run (Ok (contacts ++
             [Contact (normalize_name name) (strip good_p) (lower (strip good_e))]))
      i
      (o ++ Prompt "Enter full name: " :: Prompt phone_prompt ::
         complaints phone_complaint phone_prompt bad_p ++
         Prompt "Enter email: " ::
         complaints email_complaint "Enter email: " bad_e ++
         [Print "Contact added successfully!"]).
Proof. intros _. apply add_contact_run. Qed.

Lemma add_contact_accepts_witness :
  add_contact [Contact "Jane Doe" "(555)222-3333" "jane@example.com"]
    ["  jane   DOE "; "555 1234"; " (555)123-4567"; "jane.example.com";
     "Jane@Example.COM "; "next"] [] =
  Run (Ok [Contact "Jane Doe" "(555)222-3333" "jane@example.com";
           Contact "Jane   Doe" "(555)123-4567" "jane@example.com"])
      ["next"]
      [Prompt "Enter full name: "; Prompt phone_prompt;
       Print phone_complaint; Prompt phone_prompt;
       Prompt "Enter email: ";
       Print email_complaint; Prompt "Enter email: ";
       Print "Contact added successfully!"].
Proof.
  apply (add_contact_accepts
           [Contact "Jane Doe" "(555)222-3333" "jane@example.com"]
           "  jane   DOE " " (555)123-4567" "Jane@Example.COM "
           ["555 1234"] ["jane.example.com"] ["next"] []);
    repeat constructor.
Defined.


(** ** Removing and updating, whatever the input *)

Lemma first_match_split (name : string) : forall l : list contact,
  Forall (fun d => full_name d <> name) l \/
  exists pre c post,
    l = pre ++ c :: post /\ full_name c = name /\
    Forall (fun d => full_name d <> name) pre.
Proof.
  induction l as [|d l IH]; [left; constructor|].
  destruct (String.eqb_spec (full_name d) name) as [E|N].
  - right. exists [], d, l. repeat split; [assumption | constructor].
  - destruct IH as [H | (pre & c & post & -> & Hc & Hpre)].
    + left. now constructor.
    + right. exists (d :: pre), c, post. repeat split; [assumption|].
      now constructor.
Qed.

Lemma remove_contact_run pre post c line i o :
  full_name c = normalize_name line ->
  Forall (fun d => full_name d <> normalize_name line) pre ->
  remove_contact (pre ++ c :: post) (line :: i) o =
  Run (Ok (pre ++ post)) i
      (o ++ [Prompt remove_prompt; Print (removed_line (normalize_name line))]).
Proof.
  intros Hc Hpre. unfold remove_contact. io_unfold.
  pose proof (remove_scan_hit (normalize_name line) c post pre [] i
                (o ++ [Prompt remove_prompt]) Hc Hpre) as H.
  simpl in H. unfold normalize_name in *. rewrite H.
  now rewrite <- app_assoc.
Qed.

Lemma remove_contact_miss contacts line i o :
  Forall (fun d => full_name d <> normalize_name line) contacts ->
  remove_contact contacts (line :: i) o =
  Run (Ok contacts) i
      (o ++ [Prompt remove_prompt; Print (not_found_line (normalize_name line))]).
Proof.
  intros H. unfold remove_contact, normalize_name in *. io_unfold.
  rewrite remove_scan_miss by assumption. now rewrite <- app_assoc.
Qed.

(** X6. With no input [remove_contact] raises [EOFError].  Given an
    ASCII line it reads that line only and either returns the store
    unchanged, no contact having the normalised name, or returns it
    without the first contact of that name.  The [ValueError] of
    [list.remove] never occurs. *)
Theorem remove_contact_outcome (contacts : list contact)
    (line : string) (i : list string) (o : list event) :
  is_ascii line = true ->
  value (remove_contact contacts [] o) = Raise EOFError /\
  rest (remove_contact contacts (line :: i) o) = i /\
  ((Forall (fun d => full_name d <> normalize_name line) contacts /\
    value (remove_contact contacts (line :: i) o) = Ok contacts) \/
   exists pre c post,
     contacts = pre ++ c :: post /\ full_name c = normalize_name line /\
     Forall (fun d => full_name d <> normalize_name line) pre /\
     value (remove_contact contacts (line :: i) o) = Ok (pre ++ post)).
Proof.
  intros _. split; [reflexivity|].
  destruct (first_match_split (normalize_name line) contacts)
    as [H | (pre & c & post & -> & Hc & Hpre)].
  - rewrite remove_contact_miss by assumption. simpl. auto.
  - rewrite remove_contact_run by assumption. simpl. split; [reflexivity|].
    right. exists pre, c, post. auto.
Qed.

Lemma remove_contact_outcome_witness :
  rest (remove_contact
          [Contact "Jane Doe" "(555)222-3333" "jane@example.com"]
          ["jane doe"; "next"] []) = ["next"].
Proof.
  refine (proj1 (proj2 (remove_contact_outcome
            [Contact "Jane Doe" "(555)222-3333" "jane@example.com"]
            "jane doe" ["next"] [] _))).
  reflexivity.
Defined.

Lemma update_scan_frame name : forall todo seen i o s',
  value (update_scan name seen todo i o) = Ok s' ->
  full_name <$> s' = full_name <$> (seen ++ todo) /\
  email <$> s' = email <$> (seen ++ todo).
Proof.
  induction todo as [|d todo IH]; intros seen i o s'; simpl.
  - io_unfold. intros [= <-]. now rewrite app_nil_r.
  - destruct (String.eqb (full_name d) name).
    + io_unfold. destruct i as [|l i]; simpl; [discriminate|].
      destruct (retry is_valid_phone phone_complaint new_phone_prompt (strip l) i _)
        as [[p|e] i2 o2] eqn:E; simpl; [|discriminate].
      intros [= <-]. rewrite !fmap_app. simpl. auto.
    + intros H. apply IH in H. now rewrite <- app_assoc in H.
Qed.

(** X7. Whatever the input, a store returned by [update_contact] has
    the same names and the same emails, in the same order, as the store
    it was given: only a phone can change. *)
Theorem update_contact_frame (contacts contacts' : list contact)
    (i : list string) (o : list event) :
  value (update_contact contacts i o) = Ok contacts' ->
  full_name <$> contacts' = full_name <$> contacts /\
  email <$> contacts' = email <$> contacts.
Proof.
  unfold update_contact. io_unfold.
  destruct i as [|line i]; simpl; [discriminate|].
  intros H. now apply update_scan_frame in H.
Qed.

Lemma update_contact_frame_witness :
  full_name <$> [Contact "Jane Doe" "(555)222-3333" "jane@example.com";
                 Contact "John Smith" "(555)999-0000" "john@example.com"] =
  full_name <$> [Contact "Jane Doe" "(555)222-3333" "jane@example.com";
                 Contact "John Smith" "(555)123-4567" "john@example.com"]
  /\
  email <$> [Contact "Jane Doe" "(555)222-3333" "jane@example.com";
             Contact "John Smith" "(555)999-0000" "john@example.com"] =
  email <$> [Contact "Jane Doe" "(555)222-3333" "jane@example.com";
             Contact "John Smith" "(555)123-4567" "john@example.com"].
Proof.
  apply (update_contact_frame
           [Contact "Jane Doe" "(555)222-3333" "jane@example.com";
            Contact "John Smith" "(555)123-4567" "john@example.com"]
           [Contact "Jane Doe" "(555)222-3333" "jane@example.com";
            Contact "John Smith" "(555)999-0000" "john@example.com"]
           ["john smith"; "(555)999-0000"] []).
  reflexivity.
Defined.

(** ** Operations in sequence *)

Lemma bind_run {A B : Type} (m : IO A) (k : A -> IO B) a i o i' o' :
  m i o = Run (Ok a) i' o' -> (m ≫= k) i o = k a i' o'.
Proof. intros H. unfold mbind, io_bind. now rewrite H. Qed.

(** X8. With ASCII input lines, adding a contact under a name that no
    contact of the store has and then removing by the same line gives
    back the store as it was. *)
Theorem add_then_remove (contacts : list contact) (name p e : string)
    (i : list string) (o : list event) :
  is_ascii name = true -> is_ascii p = true -> is_ascii e = true ->
  is_valid_phone (strip p) = true ->
  is_valid_email (strip e) = true ->
  Forall (fun d => full_name d <> normalize_name name) contacts ->
  value ((contacts' ← add_contact contacts; remove_contact contacts')
           (name :: p :: e :: name :: i) o) = Ok contacts /\
  rest ((contacts' ← add_contact contacts; remove_contact contacts')
           (name :: p :: e :: name :: i) o) = i.
Proof.
  intros _ _ _ Hp He Hmiss.
  rewrite (bind_run _ _ _ _ _ _ _
             (add_contact_run contacts name p e [] [] (name :: i) o Hp
                (List.Forall_nil _) He (List.Forall_nil _))).
  rewrite remove_contact_run; [|reflexivity|assumption].
  simpl. now rewrite app_nil_r.
Qed.

Lemma add_then_remove_witness :
  value ((contacts' ← add_contact
                        [Contact "Jane Doe" "(555)222-3333" "jane@example.com"];
          remove_contact contacts')
           ["john smith"; "(555)123-4567"; "john@example.com"; "john smith"] [])
  = Ok [Contact "Jane Doe" "(555)222-3333" "jane@example.com"].
Proof.
  apply (add_then_remove
           [Contact "Jane Doe" "(555)222-3333" "jane@example.com"]
           "john smith" "(555)123-4567" "john@example.com" [] []).
  - reflexivity.
  - reflexivity.
  - reflexivity.
  - reflexivity.
  - reflexivity.
  - repeat constructor. discriminate.
Defined.

Lemma lower_title_from : forall s prev, lower (title_from prev s) = lower s.
Proof.
  induction s as [|c s IH]; intros prev; simpl; [reflexivity|].
  rewrite IH. destruct prev; [now rewrite to_lower_idem|].
  now rewrite to_lower_to_upper.
Qed.

Lemma contains_refl s : contains s s = true.
Proof.
  apply contains_spec. exists EmptyString, EmptyString.
  simpl. now rewrite append_nil_r.
Qed.

(** X9. With ASCII input lines and a store of ASCII names, a contact
    that was just added is found by a search for the line its name was
    entered with: the search writes its Found line. *)
Theorem add_then_search (contacts : list contact) (name p e : string)
    (i : list string) (o : list event) :
  is_ascii name = true -> is_ascii p = true -> is_ascii e = true ->
  Forall (fun c => is_ascii (full_name c) = true) contacts ->
  is_valid_phone (strip p) = true ->
  is_valid_email (strip e) = true ->
  In (Print (found_line (Contact (normalize_name name) (strip p) (lower (strip e)))))
     (out ((contacts' ← add_contact contacts; search_contact contacts')
             (name :: p :: e :: name :: i) o)).
Proof.
  intros _ _ _ _ Hp He.
  rewrite (bind_run _ _ _ _ _ _ _
             (add_contact_run contacts name p e [] [] (name :: i) o Hp
                (List.Forall_nil _) He (List.Forall_nil _))).
  rewrite search_contact_spec. simpl.
  set (c := Contact (normalize_name name) (strip p) (lower (strip e))).
  assert (Hin : In c (matching (strip name) (contacts ++ [c]))).
  { unfold matching. apply filter_In. split.
    - apply in_or_app. right. now left.
    - subst c. simpl. unfold normalize_name, title.
      rewrite lower_title_from. apply contains_refl. }
  apply in_or_app. right. right.
  destruct (matching (strip name) (contacts ++ [c])) as [|h hits] eqn:E;
    [destruct Hin|].
  apply (in_map (Print ∘ found_line)) in Hin. exact Hin.
Qed.

Lemma add_then_search_witness :
  In (Print "Found: John Smith, Phone: (555)123-4567, Email: john@example.com")
     (out ((contacts' ← add_contact
                          [Contact "Jane Doe" "(555)222-3333" "jane@example.com"];
            search_contact contacts')
             [" john smith"; "(555)123-4567 "; "John@Example.com"; " john smith"] [])).
Proof.
  apply (add_then_search
           [Contact "Jane Doe" "(555)222-3333" "jane@example.com"]
           " john smith" "(555)123-4567 " "John@Example.com" [] []);
    try reflexivity.
  repeat constructor.
Defined.

(** ** Viewing *)

Lemma length_spaces n : String.length (spaces n) = n.
Proof. induction n as [|n IH]; simpl; [reflexivity | now rewrite IH]. Qed.

Lemma length_ljust width s :
  String.length (ljust width s) = Nat.max width (String.length s).
Proof. unfold ljust. rewrite length_append, length_spaces. lia. Qed.

Lemma view_line_to_dict (c : contact) : view_line (to_dict c) = Ok (view_text c).
Proof.
  destruct c as [n p e]. unfold view_line, format_field, to_dict. simpl.
  now simplify_map_eq.
Qed.

Lemma view_rows_spec : forall (todo : list contact) i o,
  view_rows (to_dict <$> todo) i o =
  Run (Ok tt) i (o ++ (Print ∘ view_text <$> todo)).
Proof.
  induction todo as [|c todo IH]; intros i o.
  - simpl. io_unfold. now rewrite app_nil_r.
  - change (to_dict <$> c :: todo) with (to_dict c :: (to_dict <$> todo)).
    cbn [view_rows]. rewrite view_line_to_dict.
    unfold mbind, io_bind, print. cbn [value rest out].
    rewrite IH. now rewrite <- app_assoc.
Qed.

Lemma view_rows_raise bad more e : forall (todo : list contact) i o,
  view_line bad = Raise e ->
  view_rows ((to_dict <$> todo) ++ bad :: more) i o =
  Run (Raise e) i (o ++ (Print ∘ view_text <$> todo)).
Proof.
  induction todo as [|c todo IH]; intros i o Hbad.
  - simpl. rewrite Hbad. unfold raise. now rewrite app_nil_r.
  - change ((to_dict <$> c :: todo) ++ bad :: more)
      with (to_dict c :: ((to_dict <$> todo) ++ bad :: more)).
    cbn [view_rows]. rewrite view_line_to_dict.
    unfold mbind, io_bind, print. cbn [value rest out].
    rewrite IH by assumption. now rewrite <- app_assoc.
Qed.

Lemma eof_only_view_contacts (contacts : list contact) :
  eof_only (view_contacts (to_dict <$> contacts)).
Proof.
  intros i o. destruct contacts as [|c contacts].
  - split; [reflexivity | discriminate].
  - change (to_dict <$> c :: contacts) with (to_dict c :: (to_dict <$> contacts)).
    unfold view_contacts, mbind, io_bind, print. cbn [value rest out].
    change (to_dict c :: (to_dict <$> contacts)) with (to_dict <$> c :: contacts).
    rewrite view_rows_spec. split; [reflexivity | discriminate].
Qed.

(** X10. On a store of contacts with ASCII fields [view_contacts]
    reads nothing and raises nothing: on the empty store it writes one
    line saying so, otherwise the header, a rule of 70 hyphens and one
    line per contact in store order.  A line pads the name and the phone
    to 20 characters and the email to 30 and never cuts a field, so its
    length is 72 when every field fits its column and more otherwise.
    When a dictionary of the store cannot be formatted, the exception is
    raised after the lines before it were written: [TypeError] for a
    field bound to [None], as in a row loaded with too few cells, and
    [KeyError] for a missing name. *)
Theorem view_contacts_table (contacts : list contact)
    (i : list string) (o : list event) :
  Forall ascii_fields contacts ->
  view_contacts (to_dict <$> contacts) i o =
    Run (Ok tt) i
        (o ++ match contacts with
              | [] => [Print "No contacts available."]
              | _ :: _ =>
                  Print view_header :: Print (dashes 70) ::
                  (Print ∘ view_text <$> contacts)
              end)
  /\ String.length view_header = 72
  /\ (forall c : contact,
       String.length (view_text c) =
       Nat.max 20 (String.length (full_name c)) +
       Nat.max 20 (String.length (phone c)) +
       Nat.max 30 (String.length (email c)) + 2
       /\ startswith (full_name c) (view_text c) = true)
  /\ (forall (bad : pydict) (more : list pydict) (e : exn),
       view_line bad = Raise e ->
       view_contacts ((to_dict <$> contacts) ++ bad :: more) i o =
       Run (Raise e) i
           (o ++ Print view_header :: Print (dashes 70) ::
              (Print ∘ view_text <$> contacts)))
  /\ (forall (n p : string),
       view_line (PyDict (<["email" := None]>
                            (<["phone" := Some p]> (<["Full Name" := Some n]> ∅)))
                         None) = Raise TypeError)
  /\ (forall d : pydict,
       items d !! "Full Name" = None -> view_line d = Raise KeyError).
Proof.
  intros _. split; [|split; [reflexivity|split; [|split; [|split]]]].
  - destruct contacts as [|c contacts]; [reflexivity|].
    change (to_dict <$> c :: contacts) with (to_dict c :: (to_dict <$> contacts)).
    unfold view_contacts, mbind, io_bind, print. cbn [value rest out].
    change (to_dict c :: (to_dict <$> contacts)) with (to_dict <$> c :: contacts).
    rewrite view_rows_spec. now rewrite <- !app_assoc.
  - intros c. split.
    + unfold view_text. rewrite !length_append, !length_ljust. simpl. lia.
    + apply startswith_spec. unfold view_text, ljust.
      rewrite !append_assoc. eauto.
  - intros bad more e Hbad.
    assert (E : view_contacts ((to_dict <$> contacts) ++ bad :: more) i o =
                view_rows ((to_dict <$> contacts) ++ bad :: more) i
                  (o ++ [Print view_header] ++ [Print (dashes 70)])).
    { destruct contacts as [|c contacts]; simpl;
        unfold mbind, io_bind, print; cbn [value rest out];
        now rewrite <- app_assoc. }
    rewrite E, (view_rows_raise bad more e) by assumption.
    now rewrite <- !app_assoc.
  - intros n p. unfold view_line, format_field. simpl. now simplify_map_eq.
  - intros d H. unfold view_line, format_field. now rewrite H.
Qed.

Lemma view_contacts_table_witness :
  view_contacts
    [to_dict (Contact "John Smith" "(555)123-4567" "john@example.com");
     PyDict (<["email" := None]>
               (<["phone" := Some "(555)222-3333"]>
                  (<["Full Name" := Some "Jane Doe"]> ∅))) None]
    [] [] =
  Run (Raise TypeError) []
      [Print "Full Name            Phone                Email                         ";
       Print "----------------------------------------------------------------------";
       Print "John Smith           (555)123-4567        john@example.com              "].
Proof.
  refine (proj1 (proj2 (proj2 (proj2 (view_contacts_table
            [Contact "John Smith" "(555)123-4567" "john@example.com"] [] [] _))))
            _ [] TypeError _).
  - repeat constructor.
  - reflexivity.
Defined.

(** ** Saving and loading dictionaries of any shape *)

Lemma dict_to_list_savable (d : pydict) :
  savable d -> dict_to_list fieldnames d = Ok (row_of (cells_of d)).
Proof.
  intros [Hr Hd]. unfold dict_to_list. rewrite Hr.
  now rewrite bool_decide_eq_true_2.
Qed.

Lemma dict_to_list_unsavable (d : pydict) :
  ~ savable d -> dict_to_list fieldnames d = Raise ValueError.
Proof.
  intros H. unfold dict_to_list.
  destruct (restkey d) eqn:Hr; [reflexivity|].
  rewrite bool_decide_eq_false_2; [reflexivity|].
  intros Hd. apply H. now split.
Qed.

Lemma write_rows_savable : forall (ds : list pydict) (written : string),
  Forall savable ds ->
  write_rows ds written = (Ok tt, written +:+ rows_text (cells_of <$> ds)).
Proof.
  induction ds as [|d ds IH]; intros written H; simpl.
  - now rewrite append_nil_r.
  - inversion_clear H as [|? ? Hd Hds].
    rewrite dict_to_list_savable by assumption.
    rewrite IH by assumption. now rewrite append_assoc.
Qed.

(** X11. Every list of dictionaries whose keys are field names is
    saved without error, and loading the file gives, for each of them in
    order, the contact made of its three cells, where a missing field
    and a field bound to [None] have become the empty string (no cell
    holding a carriage return or more than 131072 characters). *)
Theorem save_then_load_cells (ds : list pydict) (filename : string)
    (fs : gmap string string) (i : list string) (o : list event) :
  Forall savable ds ->
  Forall (fun d => cr_free (cells_of d)) ds ->
  Forall (fun d => fields_fit (cells_of d)) ds ->
  (save_contacts ds filename fs).1 = Ok tt /\
  load_contacts (save_contacts ds filename fs).2 filename i o =
    Run (Ok (to_dict <$> (cells_of <$> ds))) i o.
Proof.
  intros Hs Hcr Hfit. unfold save_contacts.
  rewrite write_rows_savable by assumption.
  cbv beta iota. cbn [fst snd]. split; [reflexivity|].
  apply load_saved_text; now apply Forall_fmap.
Qed.

Lemma save_then_load_cells_witness :
  load_contacts
    (save_contacts [PyDict {[ "Full Name" := Some "Bob"; "phone" := None ]} None]
                   "contacts.csv" ∅).2
    "contacts.csv" [] [] =
  Run (Ok [to_dict (Contact "Bob" EmptyString EmptyString)]) [] [].
Proof.
  refine (proj2 (save_then_load_cells
           [PyDict {[ "Full Name" := Some "Bob"; "phone" := None ]} None]
           "contacts.csv" ∅ [] [] _ _ _)).
  - repeat constructor. apply (bool_decide_unpack _). vm_compute. exact I.
  - repeat constructor.
  - constructor; [|constructor]. repeat split; vm_compute; discriminate.
Defined.

(** X12. A dictionary with a key that is no field name, such as the
    dictionary [load_contacts] builds for a row with a surplus cell,
    cannot be saved: [save_contacts] raises [ValueError], and the file
    is left holding the header and the rows that came before. *)
Theorem save_contacts_rejects (good more : list pydict) (bad : pydict)
    (filename : string) (fs : gmap string string) :
  Forall savable good ->
  ~ savable bad ->
  save_contacts (good ++ bad :: more) filename fs =
  (Raise ValueError,
   <[filename := writerow fieldnames +:+ rows_text (cells_of <$> good)]> fs).
Proof.
  intros Hgood Hbad. unfold save_contacts.
  assert (E : forall w, write_rows (good ++ bad :: more) w =
                        (Raise ValueError, w +:+ rows_text (cells_of <$> good))).
  { induction good as [|d good IH]; intros w; simpl.
    - rewrite dict_to_list_unsavable by assumption. now rewrite append_nil_r.
    - inversion_clear Hgood as [|? ? Hd Hgood'].
      rewrite dict_to_list_savable by assumption.
      rewrite IH by assumption. now rewrite append_assoc. }
  now rewrite E.
Qed.

Lemma save_contacts_rejects_witness :
  value (load_contacts
           {[ "contacts.csv" :=
                "Full Name,phone,email" +:+ str1 LF +:+
                "Ann,(555)123-4567,ann@example.com" +:+ str1 LF +:+
                "Bob,(555)222-3333,bob@example.com,extra" +:+ str1 LF ]}
           "contacts.csv" [] []) =
    Ok [to_dict (Contact "Ann" "(555)123-4567" "ann@example.com");
        PyDict (items (to_dict (Contact "Bob" "(555)222-3333" "bob@example.com")))
               (Some ["extra"])]
  /\
  save_contacts
    [to_dict (Contact "Ann" "(555)123-4567" "ann@example.com");
     PyDict (items (to_dict (Contact "Bob" "(555)222-3333" "bob@example.com")))
            (Some ["extra"])]
    "contacts.csv" ∅ =
  (Raise ValueError,
   {[ "contacts.csv" :=
        "Full Name,phone,email" +:+ lineterminator +:+
        "Ann,(555)123-4567,ann@example.com" +:+ lineterminator ]}).
Proof.
  split; [vm_compute; reflexivity|].
  rewrite (save_contacts_rejects
             [to_dict (Contact "Ann" "(555)123-4567" "ann@example.com")] []
             (PyDict (items (to_dict (Contact "Bob" "(555)222-3333"
                                              "bob@example.com")))
                     (Some ["extra"]))
             "contacts.csv" ∅).
  - reflexivity.
  - repeat constructor. apply (bool_decide_unpack _). vm_compute. exact I.
  - intros [H _]. discriminate.
Defined.

(** ** Loading rows of any length, written with any line end *)

Lemma write_field_empty x : write_field x = EmptyString -> x = EmptyString.
Proof.
  unfold write_field. destruct (any_char must_quote x); [discriminate | auto].
Qed.

Lemma starts_lf_write_field x t :
  starts_lf t = false -> starts_lf (write_field x +:+ t) = false.
Proof.
  intros Ht. unfold write_field.
  destruct (any_char must_quote x) eqn:Hq; [reflexivity|].
  destruct x as [|c x]; [exact Ht|]. simpl in *.
  apply orb_false_iff in Hq as [Hc _].
  now apply must_quote_false in Hc as (_ & _ & _ & Hlf).
Qed.

Lemma starts_lf_join_fields : forall row t,
  starts_lf t = false -> starts_lf (join_fields row +:+ t) = false.
Proof.
  induction row as [|x [|y row] IH]; intros t Ht.
  - exact Ht.
  - now apply starts_lf_write_field.
  - change (join_fields (x :: y :: row))
      with (write_field x +:+ String COMMA (join_fields (y :: row))).
    rewrite append_assoc. now apply starts_lf_write_field.
Qed.

Lemma starts_lf_record_text row t :
  starts_lf t = false -> starts_lf (record_text row +:+ t) = false.
Proof.
  intros Ht. pose proof (starts_lf_join_fields row t Ht) as H.
  unfold record_text. destruct row as [|x row]; [exact H|].
  destruct (join_fields (x :: row)); [reflexivity | exact H].
Qed.

Lemma starts_lf_records_text (rows : list (list string)) :
  starts_lf (records_text (str1 CR) rows) = false.
Proof.
  destruct rows as [|row rows]; [reflexivity|]. simpl.
  now apply starts_lf_record_text.
Qed.

Lemma has_cr_join_fields : forall row,
  cells_cr_free row -> has_cr (join_fields row) = false.
Proof.
  induction row as [|x [|y row] IH]; intros H.
  - reflexivity.
  - inversion_clear H. now apply has_cr_write_field.
  - inversion_clear H as [|? ? Hx Hrow].
    change (join_fields (x :: y :: row))
      with (write_field x +:+ String COMMA (join_fields (y :: row))).
    rewrite has_cr_app, has_cr_cons, IH by assumption.
    now rewrite has_cr_write_field.
Qed.

Lemma has_cr_record_text row :
  cells_cr_free row -> has_cr (record_text row) = false.
Proof.
  intros H. pose proof (has_cr_join_fields row H) as E.
  unfold record_text. destruct row as [|x row]; [exact E|].
  destruct (join_fields (x :: row)); [reflexivity | exact E].
Qed.

(** The three line ends arrive as one LF. *)
Lemma universal_newlines_line_end (eol x t : string) :
  line_end eol ->
  has_cr x = false ->
  (eol = str1 CR -> starts_lf t = false) ->
  universal_newlines (x +:+ eol +:+ t) = x +:+ String LF (universal_newlines t).
Proof.
  intros Heol Hx Ht. rewrite universal_newlines_app by assumption. f_equal.
  destruct Heol as [-> | [-> | ->]].
  - apply universal_newlines_crlf.
  - reflexivity.
  - specialize (Ht eq_refl). destruct t as [|d t]; [reflexivity|].
    simpl in *. change (Ascii.eqb CR CR) with true. cbv iota.
    now rewrite Ht.
Qed.

Lemma writerow_record_text (row : list string) :
  writerow row = record_text row +:+ lineterminator.
Proof.
  unfold writerow, record_text. destruct row as [|x row]; [reflexivity|].
  now destruct (join_fields (x :: row)).
Qed.

(** The fields after the first one of a record. *)
Lemma reader_fields (t : string) : forall cells x fs,
  cells_fit (x :: cells) ->
  reader_from (Parser START_FIELD EmptyString fs)
              (readlines (join_fields (x :: cells) +:+ String LF t)) =
  cons_row (fs ++ x :: cells) (reader_from parse_reset (readlines t)).
Proof.
  induction cells as [|y cells IH]; intros x fs Hfit;
    inversion_clear Hfit as [|? ? Hx Hcells].
  - now apply reader_field_newline.
  - change (join_fields (x :: y :: cells))
      with (write_field x +:+ String COMMA (join_fields (y :: cells))).
    rewrite append_assoc.
    change (String COMMA ?a +:+ ?b) with (String COMMA (a +:+ b)).
    rewrite reader_field_comma; [|now right|apply app_cons_nonempty|assumption].
    rewrite IH by assumption. now rewrite <- app_assoc.
Qed.

(** One record of any length, ended by LF, is read back as it was
    written; the empty record is a blank line. *)
Lemma reader_record (row : list string) (t : string) :
  cells_fit row ->
  reader_from parse_reset (readlines (record_text row +:+ String LF t)) =
  cons_row row (reader_from parse_reset (readlines t)).
Proof.
  intros Hfit. unfold parse_reset. destruct row as [|x [|y cells]].
  - simpl.
    now rewrite (reader_newline _ (Parser EAT_CRNL EmptyString [])
                   (Parser START_RECORD EmptyString [])).
  - inversion_clear Hfit as [|? ? Hx _].
    unfold record_text. change (join_fields [x]) with (write_field x).
    destruct (write_field x) as [|c w] eqn:E.
    + apply write_field_empty in E as ->. simpl.
      rewrite (reader_char _ (Parser IN_QUOTED_FIELD EmptyString []));
        [|reflexivity|discriminate|reflexivity].
      rewrite (reader_char _ (Parser QUOTE_IN_QUOTED_FIELD EmptyString []));
        [|reflexivity|discriminate|reflexivity].
      now rewrite (reader_newline _ (Parser EAT_CRNL EmptyString [EmptyString])
                     (Parser START_RECORD EmptyString [EmptyString])).
    + rewrite <- E.
      destruct (reader_field START_RECORD [] x (String LF t))
        as (st' & Hst' & Hx' & ->); [now left | discriminate | assumption |].
      rewrite (reader_newline _ (Parser EAT_CRNL EmptyString [x])
                 (Parser START_RECORD EmptyString [x])); [reflexivity| |reflexivity].
      destruct Hst' as [Hs | [-> | ->]]; [|reflexivity..].
      rewrite (Hx' Hs) in E. discriminate.
  - inversion_clear Hfit as [|? ? Hx Hcells].
    assert (Hj : join_fields (x :: y :: cells) =
                 write_field x +:+ String COMMA (join_fields (y :: cells)))
      by reflexivity.
    assert (Hr : record_text (x :: y :: cells) = join_fields (x :: y :: cells)).
    { unfold record_text. rewrite Hj. now destruct (write_field x). }
    rewrite Hr, Hj, append_assoc.
    change (String COMMA ?a +:+ ?b) with (String COMMA (a +:+ b)).
    rewrite reader_field_comma; [|now left|apply app_cons_nonempty|assumption].
    now apply reader_fields.
Qed.

Lemma reader_records_text (eol : string) : forall rows : list (list string),
  line_end eol ->
  Forall cells_cr_free rows ->
  Forall cells_fit rows ->
  reader_from parse_reset (readlines (universal_newlines (records_text eol rows))) =
  Ok rows.
Proof.
  intros rows Heol. induction rows as [|row rows IH]; intros H F; [reflexivity|].
  inversion_clear H as [|? ? Hrow Hrows].
  inversion_clear F as [|? ? Frow Frows]. simpl records_text.
  rewrite universal_newlines_line_end;
    [|assumption|now apply has_cr_record_text|].
  - rewrite reader_record, IH by assumption. reflexivity.
  - intros ->. apply starts_lf_records_text.
Qed.

(** X13. A file made of a header record and any records, written with
    CR LF, LF or CR as the line end, with no carriage return inside a
    cell and no cell of more than 131072 characters, is loaded without
    any check: each record that is not empty gives one dictionary, in
    order.  Under the header of the program a record of three cells is a
    contact, a shorter record leaves the missing fields bound to [None],
    and a longer one puts the surplus cells under the key [None]. *)
Theorem load_contacts_any_rows (eol : string) (header : list string)
    (rows : list (list string)) (filename : string) (fs : gmap string string)
    (i : list string) (o : list event) :
  line_end eol ->
  Forall cells_cr_free (header :: rows) ->
  Forall cells_fit (header :: rows) ->
  load_contacts (<[filename := records_text eol (header :: rows)]> fs) filename i o =
    Run (Ok (dict_row header <$> skip_empty rows)) i o
  /\ (forall a b c : string,
        dict_row fieldnames [a; b; c] = to_dict (Contact a b c))
  /\ (forall a b : string,
        dict_row fieldnames [a; b] =
        PyDict (<["email" := None]>
                  (<["phone" := Some b]> (<["Full Name" := Some a]> ∅))) None)
  /\ (forall (a b c d : string) (more : list string),
        dict_row fieldnames (a :: b :: c :: d :: more) =
        PyDict (items (to_dict (Contact a b c))) (Some (d :: more))).
Proof.
  intros Heol Hrows Hfit. split; [|repeat split].
  unfold load_contacts. rewrite lookup_insert_eq. unfold reader.
  rewrite reader_records_text; [reflexivity | assumption..].
Qed.

Lemma load_contacts_any_rows_witness :
  load_contacts
    (<["contacts.csv" :=
         records_text (str1 CR)
           [fieldnames; ["Ann"; "(555)123-4567"]; [];
            ["Bob, Jr."; "1"; "bob"; "x"; "y"]]]> ∅)
    "contacts.csv" [] [] =
  Run (Ok [PyDict (<["email" := None]>
                     (<["phone" := Some "(555)123-4567"]>
                        (<["Full Name" := Some "Ann"]> ∅))) None;
           PyDict (items (to_dict (Contact "Bob, Jr." "1" "bob")))
                  (Some ["x"; "y"])])
      [] [].
Proof.
  refine (proj1 (load_contacts_any_rows (str1 CR) fieldnames
                   [["Ann"; "(555)123-4567"]; []; ["Bob, Jr."; "1"; "bob"; "x"; "y"]]
                   "contacts.csv" ∅ [] [] _ _ _)).
  - right. now right.
  - repeat constructor.
  - repeat constructor; fits_tac.
Defined.

(** ** The menu loop *)

Lemma print_lines_spec : forall lines i o,
  print_lines lines i o = Run (Ok tt) i (o ++ (Print <$> lines)).
Proof.
  induction lines as [|l lines IH]; intros i o; simpl.
  - io_unfold. now rewrite app_nil_r.
  - unfold mbind, io_bind, print. cbn [value rest out].
    rewrite IH. now rewrite <- app_assoc.
Qed.

Lemma menu_iteration_nil fs contacts o :
  menu_iteration fs contacts [] o = Run (Raise EOFError) [] (o ++ menu_events).
Proof.
  unfold menu_iteration, mbind, io_bind. rewrite print_lines_spec.
  cbn [value rest out input]. unfold menu_events. now rewrite app_assoc.
Qed.

Lemma menu_iteration_cons fs contacts line i o :
  menu_iteration fs contacts (line :: i) o =
  except_ValueError (Continue fs contacts)
    (match int line with
     | None => raise ValueError
     | Some choice => dispatch choice fs contacts
     end) i (o ++ menu_events).
Proof.
  unfold menu_iteration, mbind, io_bind. rewrite print_lines_spec.
  cbn [value rest out input]. unfold menu_events. now rewrite app_assoc.
Qed.

Lemma save_to_dict contacts fs :
  save_contacts (to_dict <$> contacts) contacts_file fs =
  (Ok tt, <[contacts_file := file_text contacts]> fs).
Proof. unfold save_contacts. now rewrite write_rows_to_dict. Qed.

Lemma eof_only_then {A : Type} (m : IO A) (st : A -> loop_state) :
  eof_only m -> eof_only (x ← m; mret (st x)).
Proof.
  intros H. apply eof_only_bind; [exact H | intros x; apply eof_only_ret].
Qed.

Lemma eof_only_dispatch choice fs contacts :
  eof_only (dispatch choice fs contacts).
Proof.
  unfold dispatch.
  destruct (choice =? 1)%Z; [apply eof_only_then, eof_only_add_contact|].
  destruct (choice =? 2)%Z.
  { apply eof_only_bind; [apply eof_only_view_contacts | intros _; apply eof_only_ret]. }
  destruct (choice =? 3)%Z.
  { apply eof_only_bind; [apply eof_only_search_contact | intros _; apply eof_only_ret]. }
  destruct (choice =? 4)%Z; [apply eof_only_then, eof_only_remove_contact|].
  destruct (choice =? 5)%Z; [apply eof_only_then, eof_only_update_contact|].
  destruct (choice =? 6)%Z.
  - rewrite save_to_dict.
    apply eof_only_bind; [apply eof_only_print | intros _; apply eof_only_ret].
  - apply eof_only_bind; [apply eof_only_print | intros _; apply eof_only_ret].
Qed.

Lemma except_eof_only fallback (m : IO loop_state) i o :
  eof_only m -> except_ValueError fallback m i o = m i o.
Proof.
  intros H. unfold except_ValueError.
  destruct (value (m i o)) as [st|e] eqn:E; [reflexivity|].
  destruct (proj2 (H i o) e E) as [-> _]. reflexivity.
Qed.

Lemma bind_value {A B : Type} (m : IO A) (k : A -> IO B) i o b :
  value ((m ≫= k) i o) = Ok b ->
  exists a, value (m i o) = Ok a /\
            (m ≫= k) i o = k a (rest (m i o)) (out (m i o)).
Proof.
  unfold mbind, io_bind. destruct (value (m i o)) as [a|e]; [eauto | discriminate].
Qed.

(** What a choice leads to when the turn ends normally. *)
Lemma dispatch_value choice fs contacts i o st :
  value (dispatch choice fs contacts i o) = Ok st ->
  st = Exit (<[contacts_file := file_text contacts]> fs) \/
  exists contacts',
    st = Continue fs contacts' /\ (contacts' = contacts \/ step contacts contacts').
Proof.
  unfold dispatch.
  destruct (choice =? 1)%Z.
  { intros H. apply bind_value in H as H'. destruct H' as (c' & Hc & E).
    rewrite E in H. injection H as <-. right. exists c'. split; [reflexivity|].
    right. now apply (step_add contacts c' i o). }
  destruct (choice =? 2)%Z.
  { intros H. apply bind_value in H as H'. destruct H' as (c' & Hc & E).
    rewrite E in H. injection H as <-. right. eauto. }
  destruct (choice =? 3)%Z.
  { intros H. apply bind_value in H as H'. destruct H' as (c' & Hc & E).
    rewrite E in H. injection H as <-. right. eauto. }
  destruct (choice =? 4)%Z.
  { intros H. apply bind_value in H as H'. destruct H' as (c' & Hc & E).
    rewrite E in H. injection H as <-. right. exists c'. split; [reflexivity|].
    right. now apply (step_remove contacts c' i o). }
  destruct (choice =? 5)%Z.
  { intros H. apply bind_value in H as H'. destruct H' as (c' & Hc & E).
    rewrite E in H. injection H as <-. right. exists c'. split; [reflexivity|].
    right. now apply (step_update contacts c' i o). }
  destruct (choice =? 6)%Z.
  - rewrite save_to_dict. intros [= <-]. now left.
  - intros [= <-]. right. eauto.
Qed.

(** One turn: it raises only [EOFError], with the input used up; when it
    goes on it has read a line, kept the files, and changed the store by
    at most one add, remove or update; when it leaves the loop it has
    written the store to the file. *)
Lemma menu_iteration_outcome fs contacts i o :
  match value (menu_iteration fs contacts i o) with
  | Raise e => e = EOFError /\ rest (menu_iteration fs contacts i o) = []
  | Ok (Exit fs') =>
      fs' = <[contacts_file := file_text contacts]> fs
  | Ok (Continue fs' contacts') =>
      fs' = fs /\ (contacts' = contacts \/ step contacts contacts') /\
      length (rest (menu_iteration fs contacts i o)) < length i
  end.
Proof.
  destruct i as [|line i]; [now rewrite menu_iteration_nil|].
  rewrite menu_iteration_cons.
  destruct (int line) as [choice|].
  - rewrite except_eof_only by apply eof_only_dispatch.
    pose proof (eof_only_dispatch choice fs contacts i (o ++ menu_events)) as [Hl Hr].
    destruct (value (dispatch choice fs contacts i (o ++ menu_events)))
      as [st|e] eqn:E; [|now apply Hr].
    apply dispatch_value in E as [-> | (c' & -> & Hc)]; [reflexivity|].
    simpl. repeat split; [assumption | lia].
  - unfold except_ValueError, raise. cbn [value rest out].
    io_unfold. repeat split; [now left | lia].
Qed.

Lemma rtc_step_valid s s' :
  rtc step s s' -> Forall valid_contact s -> Forall valid_contact s'.
Proof.
  intros Hsteps. induction Hsteps as [|s1 s2 s3 H12 _ IH]; [auto|].
  intros Hs. apply IH. now apply (step_valid s1).
Qed.

Lemma menu_loop_outcome_aux : forall fuel fs contacts i o,
  length i <= fuel ->
  (value (menu_loop fuel fs contacts i o).2 = Raise EOFError /\
   (menu_loop fuel fs contacts i o).1 = fs /\
   rest (menu_loop fuel fs contacts i o).2 = [])
  \/
  (value (menu_loop fuel fs contacts i o).2 = Ok tt /\
   exists contacts',
     rtc step contacts contacts' /\
     (menu_loop fuel fs contacts i o).1 = <[contacts_file := file_text contacts']> fs).
Proof.
  induction fuel as [|fuel IH]; intros fs contacts i o Hlen;
    pose proof (menu_iteration_outcome fs contacts i o) as H;
    cbn [menu_loop];
    destruct (value (menu_iteration fs contacts i o)) as [[fs' c'|fs']|e] eqn:E.
  - destruct H as (_ & _ & Hlt). lia.
  - right. simpl. split; [reflexivity|]. exists contacts. split; [constructor | exact H].
  - destruct H as [-> Hr]. left. simpl. auto.
  - destruct H as (-> & Hc & Hlt).
    destruct (IH fs c' (rest (menu_iteration fs contacts i o))
                 (out (menu_iteration fs contacts i o))) as [Hl | (Hv & c'' & Hs & Hf)];
      [lia | now left |].
    right. split; [exact Hv|]. exists c''. split; [|exact Hf].
    destruct Hc as [-> | Hc]; [exact Hs | now apply (rtc_l _ _ c')].
  - right. simpl. split; [reflexivity|]. exists contacts. split; [constructor | exact H].
  - destruct H as [-> Hr]. left. simpl. auto.
Qed.

(** The number of turns allowed does not matter once it covers the
    pending lines. *)
Lemma menu_loop_fuel : forall n fuel1 fuel2 fs contacts i o,
  length i <= n -> length i <= fuel1 -> length i <= fuel2 ->
  menu_loop fuel1 fs contacts i o = menu_loop fuel2 fs contacts i o.
Proof.
  induction n as [|n IH]; intros fuel1 fuel2 fs contacts i o Hn H1 H2;
    pose proof (menu_iteration_outcome fs contacts i o) as H;
    destruct fuel1 as [|fuel1], fuel2 as [|fuel2]; cbn [menu_loop];
    destruct (value (menu_iteration fs contacts i o)) as [[fs' c'|fs']|e] eqn:E;
    try reflexivity; destruct H as (_ & _ & Hlt); try lia.
  apply IH; lia.
Qed.

Lemma menu_loop_rejects_run fuel fs contacts line i o :
  (int line = None \/ exists z, int line = Some z /\ (z < 1 \/ 6 < z)%Z) ->
  menu_loop (S fuel) fs contacts (line :: i) o =
  menu_loop fuel fs contacts i
    (o ++ menu_events ++
       [Print match int line with
              | None => invalid_input_line
              | Some _ => invalid_choice_line
              end]).
Proof.
  intros H. cbn [menu_loop]. rewrite menu_iteration_cons.
  destruct H as [E | (z & E & Hz)]; rewrite E.
  - unfold except_ValueError, raise. cbn [value rest out]. io_unfold.
    now rewrite <- app_assoc.
  - rewrite except_eof_only by apply eof_only_dispatch. unfold dispatch.
    replace (z =? 1)%Z with false by lia. replace (z =? 2)%Z with false by lia.
    replace (z =? 3)%Z with false by lia. replace (z =? 4)%Z with false by lia.
    replace (z =? 5)%Z with false by lia. replace (z =? 6)%Z with false by lia.
    io_unfold. now rewrite <- app_assoc.
Qed.

(** X14. A line of ASCII characters that is not a number, or a number
    outside 1 to 6, is answered by one line of complaint; the store and
    the files are as before and the loop goes on with the next line of
    input. *)
Theorem menu_loop_rejects (fuel : nat) (fs : gmap string string)
    (contacts : list contact) (line : string) (i : list string) (o : list event) :
  is_ascii line = true ->
  (int line = None \/ exists z, int line = Some z /\ (z < 1 \/ 6 < z)%Z) ->
  menu_loop (S fuel) fs contacts (line :: i) o =
  menu_loop fuel fs contacts i
    (o ++ menu_events ++
       [Print match int line with
              | None => invalid_input_line
              | Some _ => invalid_choice_line
              end]).
Proof. intros _. apply menu_loop_rejects_run. Qed.

Lemma menu_loop_rejects_witness :
  menu_loop 2 ∅ [] ["six"; "-6"] [] =
  menu_loop 1 ∅ [] ["-6"] ([] ++ menu_events ++ [Print invalid_input_line])
  /\
  menu_loop 1 ∅ [] ["-6"] [] =
  menu_loop 0 ∅ [] [] ([] ++ menu_events ++ [Print invalid_choice_line]).
Proof.
  split.
  - apply (menu_loop_rejects 1 ∅ [] "six" ["-6"] []); [reflexivity | now left].
  - apply (menu_loop_rejects 0 ∅ [] "-6" [] []); [reflexivity | right].
    exists (-6)%Z. split; [reflexivity | lia].
Defined.

Lemma menu_loop_exit_run fuel fs contacts line i o :
  int line = Some 6%Z ->
  menu_loop fuel fs contacts (line :: i) o =
  (<[contacts_file := file_text contacts]> fs,
   Run (Ok tt) i (o ++ menu_events ++ [Print saved_line])).
Proof.
  intros E.
  assert (H : menu_iteration fs contacts (line :: i) o =
              Run (Ok (Exit (<[contacts_file := file_text contacts]> fs))) i
                  (o ++ menu_events ++ [Print saved_line])).
  { rewrite menu_iteration_cons, E.
    rewrite except_eof_only by apply eof_only_dispatch.
    unfold dispatch. cbn [Z.eqb Pos.eqb]. rewrite save_to_dict.
    io_unfold. now rewrite <- app_assoc. }
  destruct fuel; cbn [menu_loop]; now rewrite H.
Qed.

(** X15. Choice 6 writes the store to [contacts.csv], the header line
    followed by one row per contact in store order, in place of what the
    file held; it writes the closing line and ends the loop normally,
    leaving the rest of the input unread. *)
Theorem menu_loop_exit (fuel : nat) (fs : gmap string string)
    (contacts : list contact) (line : string) (i : list string) (o : list event) :
  int line = Some 6%Z ->
  menu_loop fuel fs contacts (line :: i) o =
  (<[contacts_file := writerow fieldnames +:+ rows_text contacts]> fs,
   Run (Ok tt) i (o ++ menu_events ++ [Print saved_line])).
Proof. apply menu_loop_exit_run. Qed.

Lemma menu_loop_exit_witness :
  menu_loop 1 ∅ [Contact "John Smith" "(555)123-4567" "john@example.com"]
            [" +6 "; "unread"] [] =
  (<[contacts_file :=
       "Full Name,phone,email" +:+ lineterminator +:+
       "John Smith,(555)123-4567,john@example.com" +:+ lineterminator]> ∅,
   Run (Ok tt) ["unread"] ([] ++ menu_events ++ [Print saved_line])).
Proof.
  apply (menu_loop_exit 1 ∅
           [Contact "John Smith" "(555)123-4567" "john@example.com"]
           " +6 " ["unread"] []).
  reflexivity.
Defined.

(** X16. What a session saves, the next session starts from: after the
    loop is left through choice 6 with a store none of whose fields
    holds a carriage return or more than 131072 characters, [main] on
    the resulting files loads that store and enters the loop with it. *)
Theorem exit_then_main (fuel : nat) (fs : gmap string string)
    (contacts : list contact) (line : string) (i i2 : list string)
    (o o2 : list event) :
  Forall cr_free contacts ->
  Forall fields_fit contacts ->
  int line = Some 6%Z ->
  main (menu_loop fuel fs contacts (line :: i) o).1 i2 o2 =
  Some (session (menu_loop fuel fs contacts (line :: i) o).1 contacts i2 o2).
Proof.
  intros Hcr Hfit E. rewrite menu_loop_exit_run by assumption. cbn [fst].
  unfold main, file_text. rewrite load_saved_text by assumption.
  cbn [value rest out]. now rewrite mapM_of_dict.
Qed.

Lemma exit_then_main_witness :
  main (menu_loop 1 ∅ [Contact "Smith, John" "(555)123-4567" "john@example.com"]
                  ["6"] []).1 ["2"] [] =
  Some (session
          (menu_loop 1 ∅ [Contact "Smith, John" "(555)123-4567" "john@example.com"]
                     ["6"] []).1
          [Contact "Smith, John" "(555)123-4567" "john@example.com"] ["2"] []).
Proof.
  apply (exit_then_main 1 ∅
           [Contact "Smith, John" "(555)123-4567" "john@example.com"]
           "6" [] ["2"] [] []).
  - repeat constructor.
  - repeat constructor; fits_tac.
  - reflexivity.
Defined.

Lemma of_dict_inv (d : pydict) (c : contact) :
  of_dict d = Some c -> d = to_dict c.
Proof.
  destruct d as [m rk]. unfold of_dict. cbn [restkey items].
  destruct rk; [discriminate|].
  destruct (m !! "Full Name") as [[n|]|] eqn:En; try discriminate.
  destruct (m !! "phone") as [[p|]|] eqn:Ep; try discriminate.
  destruct (m !! "email") as [[e|]|] eqn:Ee; try discriminate.
  case_bool_decide as Hs; [|discriminate]. intros [= <-].
  unfold to_dict. cbn [full_name phone email]. f_equal. symmetry.
  apply map_subseteq_size_eq.
  - apply map_subseteq_spec. intros k v Hk.
    apply lookup_insert_Some in Hk as [[<- <-] | [_ Hk]]; [assumption|].
    apply lookup_insert_Some in Hk as [[<- <-] | [_ Hk]]; [assumption|].
    apply lookup_insert_Some in Hk as [[<- <-] | [_ Hk]]; [assumption|].
    now rewrite lookup_empty in Hk.
  - rewrite Hs. rewrite !map_size_insert_None, map_size_empty; [lia|..].
    + apply lookup_empty.
    + now rewrite lookup_insert_ne.
    + now rewrite !lookup_insert_ne.
Qed.

Lemma mapM_of_dict_inv (rows : list pydict) (contacts : list contact) :
  mapM of_dict rows = Some contacts -> rows = to_dict <$> contacts.
Proof.
  intros H. symmetry. apply (mapM_fmap_Forall2_Some_inv of_dict); [assumption|].
  apply mapM_Some_1 in H. eapply Forall2_impl; [exact H|].
  intros d c E _. symmetry. now apply of_dict_inv.
Qed.

Lemma load_contacts_rest (fs : gmap string string) (filename : string)
    (i : list string) (o : list event) :
  rest (load_contacts fs filename i o) = i.
Proof.
  unfold load_contacts. destruct (fs !! filename) as [text|]; [|reflexivity].
  now destruct (reader (readlines (universal_newlines text))).
Qed.

(** X17. A run of [main] on a finite input of ASCII lines, when every
    row of [contacts.csv] is a contact of three fields, ends in one of
    three ways.  Either loading raises, and the program ends with that
    exception and no file written.  Or the input runs out and
    [EOFError] is raised, and then no file was written: the changes of
    the session are lost.  Or the loop was left through choice 6, and
    then the file holds the store reached from the loaded one by the
    adds, removes and updates of the session; if the loaded contacts
    were valid, so are the saved ones. *)
Theorem session_outcome (fs : gmap string string) (i : list string)
    (o : list event) (res : gmap string string * run unit) :
  Forall (fun line => is_ascii line = true) i ->
  main fs i o = Some res ->
  (exists e,
     value (load_contacts fs contacts_file i o) = Raise e /\
     value res.2 = Raise e /\ res.1 = fs)
  \/
  (exists contacts : list contact,
     value (load_contacts fs contacts_file i o) = Ok (to_dict <$> contacts) /\
     ((value res.2 = Raise EOFError /\ res.1 = fs /\ rest res.2 = [])
      \/
      (value res.2 = Ok tt /\
       exists contacts',
         rtc step contacts contacts' /\
         (Forall valid_contact contacts -> Forall valid_contact contacts') /\
         res.1 = <[contacts_file := writerow fieldnames +:+ rows_text contacts']> fs))).
Proof.
  intros _. unfold main.
  pose proof (load_contacts_rest fs contacts_file i o) as Hrest.
  destruct (value (load_contacts fs contacts_file i o)) as [rows|e] eqn:E.
  - destruct (mapM of_dict rows) as [contacts|] eqn:M; [|discriminate].
    intros [= <-]. right. exists contacts.
    split; [now rewrite (mapM_of_dict_inv _ _ M)|].
    unfold session.
    destruct (menu_loop_outcome_aux
                (length (rest (load_contacts fs contacts_file i o))) fs contacts
                (rest (load_contacts fs contacts_file i o))
                (out (load_contacts fs contacts_file i o) ++ [Print loaded_line])
                (le_n _))
      as [H | (Hv & c' & Hs & Hf)]; [now left|].
    right. split; [exact Hv|]. exists c'. split; [exact Hs|].
    split; [now apply rtc_step_valid | exact Hf].
  - intros [= <-]. left. exists e. auto.
Qed.

Lemma session_outcome_witness :
  let fs : gmap string string :=
    <[contacts_file :=
        "Full Name,phone,email" +:+ lineterminator +:+
        "John Smith,(555)123-4567,john@example.com" +:+ lineterminator]> ∅ in
  let i := ["4"; "john smith"; "6"] in
  let res :=
    session fs [Contact "John Smith" "(555)123-4567" "john@example.com"] i [] in
  (exists e,
     value (load_contacts fs contacts_file i []) = Raise e /\
     value res.2 = Raise e /\ res.1 = fs)
  \/
  (exists contacts : list contact,
     value (load_contacts fs contacts_file i []) = Ok (to_dict <$> contacts) /\
     ((value res.2 = Raise EOFError /\ res.1 = fs /\ rest res.2 = [])
      \/
      (value res.2 = Ok tt /\
       exists contacts',
         rtc step contacts contacts' /\
         (Forall valid_contact contacts -> Forall valid_contact contacts') /\
         res.1 = <[contacts_file := writerow fieldnames +:+ rows_text contacts']> fs))).
Proof.
  intros fs i res. apply (session_outcome fs i [] res).
  - repeat constructor.
  - vm_compute. reflexivity.
Defined.

(** X18. When [contacts.csv] does not exist, [main] writes the warning
    and enters the menu loop with the empty store. *)
Theorem main_absent_file (fs : gmap string string)
    (i : list string) (o : list event) :
  fs !! contacts_file = None ->
  main fs i o =
  Some (session fs [] i (o ++ [Print (not_found_warning contacts_file)])).
Proof.
  intros H. unfold main, load_contacts. rewrite H. reflexivity.
Qed.

Lemma main_absent_file_witness :
  main ∅ ["6"] [] =
  Some (session ∅ [] ["6"] ([] ++ [Print (not_found_warning contacts_file)])).
Proof. apply (main_absent_file ∅ ["6"] []). reflexivity. Defined.

(** ** Emails and the letter case of names *)

(** X19. The email check accepts the strings that hold an at sign and
    a full stop, wherever they stand and in either order, and nothing
    else; lower-casing an accepted email, as [add_contact] does before
    it stores it, leaves it accepted. *)
Theorem is_valid_email_accepts (s : string) :
  (is_valid_email s = true <->
   is_substring "@" s /\ is_substring "." s)
  /\ is_valid_email (lower s) = is_valid_email s
  /\ is_valid_email ".@" = true.
Proof.
  split; [|split; [apply is_valid_email_lower | reflexivity]].
  unfold is_valid_email. now rewrite andb_true_iff, !contains_spec.
Qed.

Lemma to_upper_to_lower c : to_upper (to_lower c) = to_upper c.
Proof. ascii_cases c; reflexivity. Qed.

Lemma title_from_lower : forall s prev,
  title_from prev (lower s) = title_from prev s.
Proof.
  induction s as [|c s IH]; intros prev; simpl; [reflexivity|].
  rewrite iscased_to_lower, IH.
  destruct prev; [now rewrite to_lower_idem | now rewrite to_upper_to_lower].
Qed.

(** X20. Two ASCII lines that differ only in letter case and in the
    white space around them normalise to the same name, so remove and update
    find a contact however the case of its name is typed. *)
Theorem normalize_name_case_insensitive (a b : string) :
  is_ascii a = true -> is_ascii b = true ->
  lower (strip a) = lower (strip b) ->
  normalize_name a = normalize_name b.
Proof.
  intros _ _ H. unfold normalize_name, title.
  rewrite <- (title_from_lower (strip a)), <- (title_from_lower (strip b)).
  now rewrite H.
Qed.

Lemma normalize_name_case_insensitive_witness :
  normalize_name "  JOHN smith" = normalize_name "john SMITH ".
Proof.
  apply (normalize_name_case_insensitive "  JOHN smith" "john SMITH ");
    reflexivity.
Defined.
